(** * DynamicTREX: the SIMD reached index, the 16-lane vector and the
      aligned allocator

    A shallow embedding of
    - [ProfileReachedIndexSIMD] and its 128-bit helpers,
    - [SIMD16u] (both the NEON and the AVX2 variant),
    - [aligned_allocator::allocate],
    followed by the properties of the specification that concern them.

    Conventions.  A [u_int8_t] or [uint16_t] lane is a [Z]; a register is the
    list of its lanes, lane 0 first (which is also the order of the array
    member of the unions the source overlays on each register).  Trip ids,
    rounds and slot numbers are [nat].  [std::size_t] arithmetic is written
    with its wrap-around. *)

From Stdlib Require Import ZArith Lia Bool.
From stdpp Require Import base list.

Local Open Scope Z_scope.

(** The two build variants the source selects with
    [#if defined(__aarch64__) || defined(__arm__)]. *)
Inductive Platform := Arm | X86.

(** ** 128-bit byte vectors (16 lanes of [u_int8_t]) *)

Module Simd128.

Abbreviation simd128_t := (list Z) (only parsing).

Definition simd_set1_u8 (val : Z) : simd128_t := replicate 16 val.
Definition simd_max_u8 (a b : simd128_t) : simd128_t := zip_with Z.max a b.
Definition simd_min_u8 (a b : simd128_t) : simd128_t := zip_with Z.min a b.

(** NEON [makeMask]: the loop
    [for (i = 0; i < int(round) - 1 && i < 16; ++i) buf[i] = 0xFF]
    over a zeroed 16-byte buffer.  It runs at most 16 times. *)
Fixpoint makeMask_loop (n : nat) (i : nat) (round : nat) (buf : list Z)
  : list Z :=
  match n with
  | O => buf
  | S n' =>
      if (Z.of_nat i <? Z.of_nat round - 1) && (Z.of_nat i <? 16)
      then makeMask_loop n' (S i) round (<[i := 255]> buf)
      else buf
  end.

Definition makeMask_neon (round : nat) : simd128_t :=
  makeMask_loop 16 0 round (replicate 16 0).

(** The initialiser of [MAX_MASKS], in the order it is written: 32
    64-bit integers, two per [__m128i] (low half first). *)
Definition MAX_MASKS_init : list Z :=
  [ 0x0000000000000000; 0x0000000000000000;
    0x00000000000000FF; 0x0000000000000000;
    0x000000000000FFFF; 0x0000000000000000;
    0x0000000000FFFFFF; 0x0000000000000000;
    0x00000000FFFFFFFF; 0x0000000000000000;
    0x000000FFFFFFFFFF; 0x0000000000000000;
    0x0000FFFFFFFFFFFF; 0x0000000000000000;
    0x00FFFFFFFFFFFFFF; 0x0000000000000000;
    -1; 0x0000000000000000;
    -1; 0x00000000000000FF;
    -1; 0x000000000000FFFF;
    -1; 0x0000000000FFFFFF;
    -1; 0x00000000FFFFFFFF;
    -1; 0x000000FFFFFFFFFF;
    -1; 0x0000FFFFFFFFFFFF;
    -1; 0x00FFFFFFFFFFFFFF ].

(** The eight bytes of a 64-bit integer, least significant first
    (two's complement for the negative literal). *)
Definition bytes_of_epi64 (x : Z) : list Z :=
  map (fun k : nat => Z.land (Z.shiftr (x mod 2 ^ 64) (8 * Z.of_nat k)) 255)
      (seq 0 8).

Definition MAX_MASKS (k : nat) : simd128_t :=
  bytes_of_epi64 (MAX_MASKS_init !!! (2 * k)%nat)
    ++ bytes_of_epi64 (MAX_MASKS_init !!! (2 * k + 1)%nat).

Definition makeMask_sse (round : nat) : simd128_t :=
  MAX_MASKS (round - 1)%nat.

Definition makeMask (plat : Platform) (round : nat) : simd128_t :=
  match plat with
  | Arm => makeMask_neon round
  | X86 => makeMask_sse round
  end.

End Simd128.

(** ** The timetable data the index consumes *)

(** Modelled from the spec: [DataStructures/TripBased/Data.h] is not part of
    the sources at hand.  The index uses four members of it: the number of
    trips, the stop count of a trip, the route of a trip and, per route, the
    first trip of the route (the trips of route [x] being the ids from
    [firstTripOfRoute[x]] up to, excluding, [firstTripOfRoute[x+1]]). *)
Record Data := {
  numberOfTrips : nat;
  numberOfStopsInTrip : nat → Z;
  routeOfTrip : list nat;
  firstTripOfRoute : list nat
}.

Definition isTrip (d : Data) (trip : nat) : bool :=
  (trip <? numberOfTrips d)%nat.

(** The bound of the scan in [update]:
    [data.firstTripOfRoute[data.routeOfTrip[trip] + 1]]. *)
Definition routeEnd (d : Data) (trip : nat) : nat :=
  firstTripOfRoute d !!! (routeOfTrip d !!! trip + 1)%nat.

Definition routeBegin (d : Data) (trip : nat) : nat :=
  firstTripOfRoute d !!! (routeOfTrip d !!! trip).

(** ** ProfileReachedIndexSIMD *)

Module ReachedIndex.
Import Simd128.

(** [union ReachedElement { simd128_t mValues; u_int8_t values[16]; }] *)
Abbreviation ReachedElement := (list Z) (only parsing).

(** The member [labels]; [defaultLabels] is fixed by the constructor and
    never written again, so it is a function of the data. *)
Abbreviation Labels := (list (list Z)) (only parsing).

(** Storing into a [u_int8_t]. *)
Definition to_u8 (x : Z) : Z := x mod 256.

(** The constructor's [std::fill] per trip. *)
Definition defaultLabels (d : Data) : Labels :=
  map (fun trip => replicate 16 (to_u8 (numberOfStopsInTrip d trip)))
      (seq 0 (numberOfTrips d)).

Definition clear (d : Data) (labels : Labels) : Labels := defaultLabels d.

(** [labels[trip].values[round - 1]] *)
Definition slotOfRound (round : nat) : nat := (round - 1)%nat.

Definition getPosition (labels : Labels) (trip round : nat) : Z :=
  (labels !!! trip) !!! slotOfRound round.

Definition alreadyReached (labels : Labels) (trip : nat) (position : Z)
    (round : nat) : bool :=
  getPosition labels trip round <=? position.

(** Writing through the reference [operator()] returns. *)
Definition setPosition (labels : Labels) (trip round : nat) (v : Z)
  : Labels :=
  <[trip := <[slotOfRound round := to_u8 v]> (labels !!! trip)]> labels.

(** The scan of [update]; [n] is the number of trips left before the
    bound, i.e. [tr < bound] is [n <> 0]. *)
Fixpoint update_loop (position : Z) (round : nat) (FILTER : simd128_t)
    (n : nat) (tr : nat) (labels : Labels) : Labels :=
  match n with
  | O => labels
  | S n' =>
      if getPosition labels tr round >? position
      then update_loop position round FILTER n' (S tr)
             (<[tr := simd_min_u8 (labels !!! tr) FILTER]> labels)
      else labels
  end.

Definition makeFilter (plat : Platform) (position : Z) (round : nat)
  : simd128_t :=
  simd_max_u8 (simd_set1_u8 position) (makeMask plat round).

Definition update (plat : Platform) (d : Data) (labels : Labels)
    (trip : nat) (position : Z) (round : nat) : Labels :=
  let FILTER := makeFilter plat position round in
  update_loop position round FILTER (routeEnd d trip - trip)%nat trip labels.

(** What the specification compares [update] with: the same filter
    applied to every one of the next [n] trips, with no early exit. *)
Fixpoint update_every (FILTER : simd128_t) (n : nat) (tr : nat)
    (labels : Labels) : Labels :=
  match n with
  | O => labels
  | S n' =>
      update_every FILTER n' (S tr)
        (<[tr := simd_min_u8 (labels !!! tr) FILTER]> labels)
  end.

Definition update_no_exit (plat : Platform) (d : Data) (labels : Labels)
    (trip : nat) (position : Z) (round : nat) : Labels :=
  update_every (makeFilter plat position round)
    (routeEnd d trip - trip)%nat trip labels.

(** One call of [update], and a sequence of them. *)
Record Call := { c_trip : nat; c_position : Z; c_round : nat }.

Definition apply_call (plat : Platform) (d : Data) (labels : Labels)
    (c : Call) : Labels :=
  update plat d labels (c_trip c) (c_position c) (c_round c).

Definition run (plat : Platform) (d : Data) (labels : Labels)
    (cs : list Call) : Labels :=
  fold_left (apply_call plat d) cs labels.

(** The assertions of [update] and the range of its [u_int8_t] argument. *)
Definition valid_call (d : Data) (c : Call) : Prop :=
  isTrip d (c_trip c) = true ∧ (0 < c_round c < 16)%nat
  ∧ 0 <= c_position c <= 255.

End ReachedIndex.

Import Simd128 ReachedIndex.

(** ** Well-formedness *)

(** A label vector has its 16 byte lanes. *)
Definition wf_elem (e : ReachedElement) : Prop :=
  length e = 16%nat ∧ Forall (fun x => 0 <= x <= 255) e.

(** [labels] has one element per trip, as the constructor sizes it. *)
Definition wf_labels (d : Data) (labels : Labels) : Prop :=
  length labels = numberOfTrips d ∧ Forall wf_elem labels.

(** A trip lies in the id range of its route, the range holds trips of that
    route only, and the trips of a route have one stop count (they share
    the route's stop sequence). *)
Definition wf_trip (d : Data) (t : nat) : Prop :=
  (routeBegin d t <= t < routeEnd d t)%nat
  ∧ (routeEnd d t <= numberOfTrips d)%nat
  ∧ Forall (fun t' => routeOfTrip d !!! t' = routeOfTrip d !!! t
                      ∧ numberOfStopsInTrip d t' = numberOfStopsInTrip d t)
           (seq (routeBegin d t) (routeEnd d t - routeBegin d t)).

Definition wf_data (d : Data) : Prop :=
  Forall (wf_trip d) (seq 0 (numberOfTrips d)).

(** The two invariants of the states [update] builds from [clear]. *)
Definition roundMonotone (labels : Labels) : Prop :=
  ∀ t i : nat, (t < length labels)%nat → (i < 15)%nat →
    (labels !!! t) !!! S i <= (labels !!! t) !!! i.

Definition tripOrdered (d : Data) (labels : Labels) : Prop :=
  ∀ t t' i : nat, (t < numberOfTrips d)%nat → (t <= t' < routeEnd d t)%nat →
    (i < 16)%nat → (labels !!! t') !!! i <= (labels !!! t) !!! i.

Definition Inv (d : Data) (labels : Labels) : Prop :=
  wf_labels d labels ∧ roundMonotone labels ∧ tripOrdered d labels.

(** Call [c] reaches trip [t] at round [r]: [t] is the trip of the call
    or a later trip of its route, and [r] is the round of the call or a
    later one. *)
Definition covers (d : Data) (t r : nat) (c : Call) : bool :=
  (c_trip c <=? t)%nat && (t <? routeEnd d (c_trip c))%nat
  && (c_round c <=? r)%nat.

(** The least of [sentinel] and the positions of the calls that reach
    trip [t] at round [r]. *)
Definition bestPosition (d : Data) (cs : list Call) (t r : nat)
    (sentinel : Z) : Z :=
  fold_right Z.min sentinel
    (map c_position (List.filter (covers d t r) cs)).

(** ** SIMD16u: 16 lanes of [uint16_t] *)

(** All bits of a 16-bit lane set. *)
Definition ALL_ONES : Z := 0xFFFF.

Definition cmpeq_lane (x y : Z) : Z := if x =? y then ALL_ONES else 0.

(** Arithmetic of a [uint16_t] lane wraps at [2^16]. *)
Definition wrap16 (x : Z) : Z := x mod 65536.

(** [static_cast<int16_t>] of an [int]. *)
Definition to_int16 (x : Z) : Z :=
  let y := x mod 65536 in if y <? 32768 then y else y - 65536.

(** A three-operand lane-wise operation. *)
Fixpoint lanes3 (f : Z → Z → Z → Z) (a b c : list Z) : list Z :=
  match a, b, c with
  | x :: a', y :: b', z :: c' => f x y z :: lanes3 f a' b' c'
  | _, _, _ => []
  end.

(** The lanes of a vector are 16-bit values. *)
Definition u16_lanes (l : list Z) : Prop := Forall (fun x => 0 <= x < 65536) l.

(** The NEON variant: two [uint16x8_t] halves overlaid with [arr]. *)
Module SIMD16u_NEON.

Record Holder := { lo : list Z; hi : list Z }.

Definition arr (v : Holder) : list Z := lo v ++ hi v.

Definition vmaxq_u16 (a b : list Z) : list Z := zip_with Z.max a b.
Definition vminq_u16 (a b : list Z) : list Z := zip_with Z.min a b.
Definition vceqq_u16 (a b : list Z) : list Z := zip_with cmpeq_lane a b.

(** [SIMD16u::load] *)
Definition load (ptr : list Z) : Holder :=
  {| lo := take 8 ptr; hi := take 8 (drop 8 ptr) |}.

(** [operator[]]: the lane [i & 15]. *)
Definition lane (v : Holder) (i : nat) : Z := arr v !!! Nat.land i 15.

(** [maxmask] and [minmask] change the receiver and return a mask; the
    pair is (receiver afterwards, mask). *)
Definition maxmask (v o : Holder) : Holder * Holder :=
  let mlo := vmaxq_u16 (lo v) (lo o) in
  let mhi := vmaxq_u16 (hi v) (hi o) in
  let eq0lo := vceqq_u16 mlo (lo v) in
  let eq0hi := vceqq_u16 mhi (hi v) in
  ({| lo := mlo; hi := mhi |}, {| lo := eq0lo; hi := eq0hi |}).

Definition minmask (v o : Holder) : Holder * Holder :=
  let mlo := vminq_u16 (lo v) (lo o) in
  let mhi := vminq_u16 (hi v) (hi o) in
  let eq0lo := vceqq_u16 mlo (lo v) in
  let eq0hi := vceqq_u16 mhi (hi v) in
  ({| lo := mlo; hi := mhi |}, {| lo := eq0lo; hi := eq0hi |}).

Definition wf (v : Holder) : Prop :=
  length (lo v) = 8%nat ∧ length (hi v) = 8%nat.

Definition vdupq_n_u16 (scalar : Z) : list Z := replicate 8 scalar.
Definition vdupq_n_s16 (scalar : Z) : list Z := replicate 8 scalar.

(** [SIMD16u(uint16_t scalar)] and [fill]. *)
Definition broadcast (scalar : Z) : Holder :=
  {| lo := vdupq_n_u16 scalar; hi := vdupq_n_u16 scalar |}.

(** [vst1q_u16(ptr + off, r)] on the buffer [ptr] points to. *)
Definition vst1q_u16 (off : nat) (r : list Z) (mem : list Z) : list Z :=
  take off mem ++ r ++ drop (off + 8) mem.

(** [SIMD16u::store] *)
Definition store (v : Holder) (mem : list Z) : list Z :=
  vst1q_u16 8 (hi v) (vst1q_u16 0 (lo v) mem).

(** Assignment through [operator[]]: [arr] overlays the two halves. *)
Definition set_lane (v : Holder) (i : nat) (x : Z) : Holder :=
  let k := Nat.land i 15 in
  if (k <? 8)%nat
  then {| lo := <[k := x]> (lo v); hi := hi v |}
  else {| lo := lo v; hi := <[(k - 8)%nat := x]> (hi v) |}.

Definition vaddq_u16 (a b : list Z) : list Z :=
  zip_with (fun x y => wrap16 (x + y)) a b.
Definition vsubq_u16 (a b : list Z) : list Z :=
  zip_with (fun x y => wrap16 (x - y)) a b.

(** [operator+] and [operator-] *)
Definition add (v o : Holder) : Holder :=
  {| lo := vaddq_u16 (lo v) (lo o); hi := vaddq_u16 (hi v) (hi o) |}.
Definition sub (v o : Holder) : Holder :=
  {| lo := vsubq_u16 (lo v) (lo o); hi := vsubq_u16 (hi v) (hi o) |}.

(** [vshlq_u16]: every lane is shifted by the signed low byte of the
    matching lane of the shift vector, to the left when that is positive
    and to the right when it is negative; bits shifted out are lost. *)
Definition vshl_lane (x s : Z) : Z :=
  let b := s mod 256 in
  let n := if b <? 128 then b else b - 256 in
  if 0 <=? n then wrap16 (x * 2 ^ n) else x / 2 ^ (- n).
Definition vshlq_u16 (a shift : list Z) : list Z := zip_with vshl_lane a shift.

Definition sll (v : Holder) (bits : Z) : Holder :=
  let shift := vdupq_n_s16 (to_int16 bits) in
  {| lo := vshlq_u16 (lo v) shift; hi := vshlq_u16 (hi v) shift |}.
Definition srl (v : Holder) (bits : Z) : Holder :=
  let shift := vdupq_n_s16 (to_int16 (- bits)) in
  {| lo := vshlq_u16 (lo v) shift; hi := vshlq_u16 (hi v) shift |}.

Definition cmpeq (v o : Holder) : Holder :=
  {| lo := vceqq_u16 (lo v) (lo o); hi := vceqq_u16 (hi v) (hi o) |}.

(** [vbslq_u16(mask, a, b)]: bit by bit, [a] where the mask bit is 1 and
    [b] where it is 0. *)
Definition vbsl_lane (m a b : Z) : Z :=
  Z.lor (Z.land m a) (Z.land (Z.lnot m) b).
Definition vbslq_u16 (m a b : list Z) : list Z := lanes3 vbsl_lane m a b.

(** [blend] changes the receiver; the result is the receiver afterwards. *)
Definition blend (v other mask : Holder) : Holder :=
  {| lo := vbslq_u16 (lo mask) (lo v) (lo other);
     hi := vbslq_u16 (hi mask) (hi v) (hi other) |}.

End SIMD16u_NEON.

(** The AVX2 variant: one [__m256i] overlaid with [arr]. *)
Module SIMD16u_AVX2.

Record Holder := { reg : list Z }.

Definition arr (v : Holder) : list Z := reg v.

Definition _mm256_max_epu16 (a b : list Z) : list Z := zip_with Z.max a b.
Definition _mm256_min_epu16 (a b : list Z) : list Z := zip_with Z.min a b.
Definition _mm256_cmpeq_epi16 (a b : list Z) : list Z :=
  zip_with cmpeq_lane a b.

Definition load (ptr : list Z) : Holder := {| reg := take 16 ptr |}.

Definition lane (v : Holder) (i : nat) : Z := arr v !!! Nat.land i 15.

(** [max] and [min] change the receiver and return the mask register; the
    pair is (receiver afterwards, mask). *)
Definition max (v o : Holder) : Holder * list Z :=
  let m := _mm256_max_epu16 (reg v) (reg o) in
  let eq0 := _mm256_cmpeq_epi16 m (reg v) in
  ({| reg := m |}, eq0).

Definition min (v o : Holder) : Holder * list Z :=
  let m := _mm256_min_epu16 (reg v) (reg o) in
  let eq0 := _mm256_cmpeq_epi16 m (reg v) in
  ({| reg := m |}, eq0).

Definition wf (v : Holder) : Prop := length (reg v) = 16%nat.

Definition _mm256_set1_epi16 (scalar : Z) : list Z := replicate 16 scalar.

(** [SIMD16u(uint16_t scalar)] and [fill]. *)
Definition broadcast (scalar : Z) : Holder :=
  {| reg := _mm256_set1_epi16 scalar |}.

(** [_mm256_storeu_si256(ptr, r)] on the buffer [ptr] points to. *)
Definition _mm256_storeu_si256 (r : list Z) (mem : list Z) : list Z :=
  r ++ drop 16 mem.

(** [SIMD16u::store] *)
Definition store (v : Holder) (mem : list Z) : list Z :=
  _mm256_storeu_si256 (reg v) mem.

(** Assignment through [operator[]]. *)
Definition set_lane (v : Holder) (i : nat) (x : Z) : Holder :=
  {| reg := <[Nat.land i 15 := x]> (reg v) |}.

Definition _mm256_add_epi16 (a b : list Z) : list Z :=
  zip_with (fun x y => wrap16 (x + y)) a b.
Definition _mm256_sub_epi16 (a b : list Z) : list Z :=
  zip_with (fun x y => wrap16 (x - y)) a b.

(** [operator+] and [operator-] *)
Definition add (v o : Holder) : Holder :=
  {| reg := _mm256_add_epi16 (reg v) (reg o) |}.
Definition sub (v o : Holder) : Holder :=
  {| reg := _mm256_sub_epi16 (reg v) (reg o) |}.

(** [_mm256_slli_epi16] and [_mm256_srli_epi16]: the count is the low
    byte of the operand, and a count above 15 clears every lane. *)
Definition _mm256_slli_epi16 (a : list Z) (imm8 : Z) : list Z :=
  let count := imm8 mod 256 in
  map (fun x => if count >? 15 then 0 else wrap16 (x * 2 ^ count)) a.
Definition _mm256_srli_epi16 (a : list Z) (imm8 : Z) : list Z :=
  let count := imm8 mod 256 in
  map (fun x => if count >? 15 then 0 else x / 2 ^ count) a.

Definition sll (v : Holder) (bits : Z) : Holder :=
  {| reg := _mm256_slli_epi16 (reg v) bits |}.
Definition srl (v : Holder) (bits : Z) : Holder :=
  {| reg := _mm256_srli_epi16 (reg v) bits |}.

Definition cmpeq (v o : Holder) : Holder :=
  {| reg := _mm256_cmpeq_epi16 (reg v) (reg o) |}.

(** [_mm256_blendv_epi8(a, b, mask)] chooses byte by byte, [b] where the
    top bit of the mask byte is set and [a] where it is not.  A 16-bit
    lane is its low byte followed by its high byte, whose top bits are
    bits 7 and 15 of the lane. *)
Definition blendv_lane (a b m : Z) : Z :=
  let low := if Z.testbit m 7 then b mod 256 else a mod 256 in
  let high := if Z.testbit m 15 then b / 256 else a / 256 in
  low + 256 * high.
Definition _mm256_blendv_epi8 (a b m : list Z) : list Z :=
  lanes3 blendv_lane a b m.

(** [blend] changes the receiver; the result is the receiver afterwards. *)
Definition blend (v other : Holder) (mask : list Z) : Holder :=
  {| reg := _mm256_blendv_epi8 (reg other) (reg v) mask |}.

End SIMD16u_AVX2.

(** ** aligned_allocator *)

Module AlignedAllocator.

(** [std::size_t] of [w] bits. *)
Definition size_wrap (w x : Z) : Z := x mod 2 ^ w.
Definition SIZE_MAX (w : Z) : Z := 2 ^ w - 1.

(** [(size_t(0) - size_t(1)) / sizeof(T)] *)
Definition max_size (w sizeofT : Z) : Z := size_wrap w (0 - 1) / sizeofT.

(** What [allocate] hands to [aligned_alloc] or [_mm_malloc]. *)
Record Request := { req_alignment : Z; req_size : Z }.

Inductive Outcome :=
| ReturnNull
| ThrowLengthError
| ThrowBadAlloc
| ReturnPointer (pv : Z).

(** [allocate(n)].  [platform_alloc] is the platform's allocator, which
    answers a request with an address, or with 0 for [NULL].  The result is
    the request made of the platform, if any, and how the call ends. *)
Definition allocate (plat : Platform) (w sizeofT Alignment : Z)
    (platform_alloc : Request → Z) (n : Z) : option Request * Outcome :=
  if n =? 0 then (None, ReturnNull)
  else if n >? max_size w sizeofT then (None, ThrowLengthError)
  else
    let total := size_wrap w (n * sizeofT) in
    let aligned_total :=
      Z.land (size_wrap w (total + Alignment - 1))
             (size_wrap w (Z.lnot (size_wrap w (Alignment - 1)))) in
    let req :=
      match plat with
      | Arm => {| req_alignment := Alignment; req_size := aligned_total |}
      | X86 => {| req_alignment := Alignment; req_size := total |}
      end in
    let pv := platform_alloc req in
    if pv =? 0 then (Some req, ThrowBadAlloc)
    else (Some req, ReturnPointer pv).

End AlignedAllocator.

Import AlignedAllocator.

(** ** A concrete timetable and concrete vectors *)

(** The scenario of the specification: one route of three trips with five
    stops each. *)
Definition exData : Data :=
  {| numberOfTrips := 3; numberOfStopsInTrip := fun _ => 5;
     routeOfTrip := [0; 0; 0]%nat; firstTripOfRoute := [0; 3]%nat |}.

(** One route with a single trip of 300 stops. *)
Definition exDataLong : Data :=
  {| numberOfTrips := 1; numberOfStopsInTrip := fun _ => 300;
     routeOfTrip := [0]%nat; firstTripOfRoute := [0; 1]%nat |}.

(** Two routes: trips 0 to 2 with five stops, trips 3 and 4 with seven. *)
Definition exData2 : Data :=
  {| numberOfTrips := 5;
     numberOfStopsInTrip := fun t => if (t <? 3)%nat then 5 else 7;
     routeOfTrip := [0; 0; 0; 1; 1]%nat;
     firstTripOfRoute := [0; 3; 5]%nat |}.

Definition exLanesA : list Z :=
  [7; 0; 65535; 12; 300; 300; 1; 2; 3; 4; 50000; 6; 7; 8; 9; 10].
Definition exLanesB : list Z :=
  [5; 0; 1; 13; 299; 301; 1; 2; 9; 4; 40000; 6; 65535; 8; 0; 10].

(** Decision procedures, so that the assumptions can be checked on
    concrete data. *)
#[local] Instance wf_elem_dec (e : ReachedElement) : Decision (wf_elem e).
Proof. unfold wf_elem. apply _. Defined.

#[local] Instance wf_labels_dec d (labels : Labels) :
  Decision (wf_labels d labels).
Proof. unfold wf_labels. apply _. Defined.

#[local] Instance wf_trip_dec d (t : nat) : Decision (wf_trip d t).
Proof. unfold wf_trip. apply _. Defined.

#[local] Instance wf_data_dec d : Decision (wf_data d).
Proof. unfold wf_data. apply _. Defined.

#[local] Instance valid_call_dec d c : Decision (valid_call d c).
Proof. unfold valid_call. apply _. Defined.

#[local] Instance u16_lanes_dec (l : list Z) : Decision (u16_lanes l).
Proof. unfold u16_lanes. apply _. Defined.

Ltac by_decision := apply (bool_decide_unpack _); vm_compute; exact I.

(** * Properties *)

(** ** Lane-wise helpers shared by all registers *)

Lemma lookup_total_zip_with_lanes (f : Z → Z → Z) (a b : list Z) (i : nat) :
  (i < length a)%nat → (i < length b)%nat →
  zip_with f a b !!! i = f (a !!! i) (b !!! i).
Proof.
  intros Ha Hb.
  destruct (lookup_lt_is_Some_2 a i Ha) as [x Hx].
  destruct (lookup_lt_is_Some_2 b i Hb) as [y Hy].
  rewrite (list_lookup_total_correct a i x Hx).
  rewrite (list_lookup_total_correct b i y Hy).
  apply list_lookup_total_correct.
  rewrite lookup_zip_with, Hx. simpl. rewrite Hy. reflexivity.
Qed.

(** ** The masks and the filter *)

Ltac round_cases r :=
  do 16 (destruct r as [|r]; [try lia; try (vm_compute; reflexivity)|]);
  try lia.

Lemma makeMask_spec plat (round : nat) :
  (0 < round < 16)%nat →
  makeMask plat round
  = replicate (round - 1) 255 ++ replicate (17 - round) 0.
Proof.
  intros Hr. destruct plat; round_cases round.
Qed.

Lemma makeMask_backends_agree (round : nat) :
  (0 < round < 16)%nat → makeMask_neon round = makeMask_sse round.
Proof.
  intros Hr.
  change (makeMask Arm round = makeMask X86 round).
  rewrite !makeMask_spec by assumption. reflexivity.
Qed.

Lemma replicate_zip_max (n : nat) (p c : Z) :
  zip_with Z.max (replicate n p) (replicate n c) = replicate n (Z.max p c).
Proof. induction n as [|n IH]; simpl; [reflexivity | now rewrite IH]. Qed.

Lemma makeFilter_spec plat (position : Z) (round : nat) :
  (0 < round < 16)%nat → 0 <= position <= 255 →
  makeFilter plat position round
  = replicate (round - 1) 255 ++ replicate (17 - round) position.
Proof.
  intros Hr Hp. unfold makeFilter, simd_max_u8, simd_set1_u8.
  rewrite makeMask_spec by assumption.
  replace 16%nat with ((round - 1) + (17 - round))%nat at 1 by lia.
  rewrite replicate_add, zip_with_app by (rewrite !length_replicate; lia).
  rewrite !replicate_zip_max.
  rewrite Z.max_r, Z.max_l by lia. reflexivity.
Qed.

Lemma makeFilter_length plat position round :
  (0 < round < 16)%nat → 0 <= position <= 255 →
  length (makeFilter plat position round) = 16%nat.
Proof.
  intros Hr Hp. rewrite makeFilter_spec by assumption.
  rewrite length_app, !length_replicate. lia.
Qed.

Lemma makeFilter_lane plat position round (i : nat) :
  (0 < round < 16)%nat → 0 <= position <= 255 → (i < 16)%nat →
  makeFilter plat position round !!! i
  = if (i <? round - 1)%nat then 255 else position.
Proof.
  intros Hr Hp Hi. rewrite makeFilter_spec by assumption.
  destruct (Nat.ltb_spec i (round - 1)) as [Hlt | Hge].
  - rewrite lookup_total_app_l by (rewrite length_replicate; lia).
    apply lookup_total_replicate_2. lia.
  - rewrite lookup_total_app_r by (rewrite length_replicate; lia).
    apply lookup_total_replicate_2. rewrite length_replicate. lia.
Qed.

(** ** One label vector under the filter *)

Lemma wf_elem_lane (e : ReachedElement) (i : nat) :
  wf_elem e → (i < 16)%nat → 0 <= e !!! i <= 255.
Proof.
  intros [Hlen Hall] Hi.
  apply (Forall_lookup_total_1 _ e i Hall). lia.
Qed.

Lemma relaxed_lane plat position round (e : ReachedElement) (i : nat) :
  (0 < round < 16)%nat → 0 <= position <= 255 → wf_elem e → (i < 16)%nat →
  simd_min_u8 e (makeFilter plat position round) !!! i
  = if (i <? round - 1)%nat then e !!! i else Z.min (e !!! i) position.
Proof.
  intros Hr Hp He Hi. unfold simd_min_u8.
  rewrite lookup_total_zip_with_lanes;
    [| destruct He as [-> _]; lia | rewrite makeFilter_length; lia].
  rewrite makeFilter_lane by assumption.
  pose proof (wf_elem_lane e i He Hi).
  destruct (i <? round - 1)%nat; [apply Z.min_l; lia | reflexivity].
Qed.

Lemma relaxed_wf plat position round (e : ReachedElement) :
  (0 < round < 16)%nat → 0 <= position <= 255 → wf_elem e →
  wf_elem (simd_min_u8 e (makeFilter plat position round)).
Proof.
  intros Hr Hp [Hlen Hall]. split.
  - unfold simd_min_u8. rewrite length_zip_with, makeFilter_length; lia.
  - refine (Forall_lookup_total_2 _ _ _). intros i Hi.
    assert (Hi16 : (i < 16)%nat).
    { unfold simd_min_u8 in Hi.
      rewrite length_zip_with, makeFilter_length in Hi; lia. }
    rewrite relaxed_lane by (try assumption; split; assumption).
    pose proof (wf_elem_lane e i (conj Hlen Hall) Hi16).
    destruct (i <? round - 1)%nat; lia.
Qed.

(** ** The scan *)

Lemma lookup_total_beyond (labels : Labels) (j : nat) :
  (length labels <= j)%nat → labels !!! j = [].
Proof.
  intros Hj. rewrite list_lookup_total_alt, (lookup_ge_None_2 labels j Hj).
  reflexivity.
Qed.

Lemma update_every_length F n tr (labels : Labels) :
  length (update_every F n tr labels) = length labels.
Proof.
  revert tr labels. induction n as [|n IH]; intros tr labels; simpl.
  - reflexivity.
  - rewrite IH. apply length_insert.
Qed.

Lemma update_every_out F n tr (labels : Labels) (j : nat) :
  ¬ (tr <= j < tr + n)%nat → update_every F n tr labels !!! j = labels !!! j.
Proof.
  revert tr labels. induction n as [|n IH]; intros tr labels Hj; simpl.
  - reflexivity.
  - rewrite IH by lia. apply list_lookup_total_insert_ne. lia.
Qed.

Lemma update_every_in F n tr (labels : Labels) (j : nat) :
  (tr <= j < tr + n)%nat →
  update_every F n tr labels !!! j = simd_min_u8 (labels !!! j) F.
Proof.
  revert tr labels. induction n as [|n IH]; intros tr labels Hj; simpl.
  - lia.
  - destruct (decide (j = tr)) as [-> | Hne].
    + rewrite update_every_out by lia.
      destruct (Nat.lt_ge_cases tr (length labels)) as [Hlt | Hge].
      * apply list_lookup_total_insert_eq. assumption.
      * rewrite list_insert_ge by assumption.
        rewrite lookup_total_beyond by assumption. reflexivity.
    + rewrite IH by lia.
      rewrite list_lookup_total_insert_ne by lia. reflexivity.
Qed.

Lemma update_every_wf plat d position round n tr (labels : Labels) :
  (0 < round < 16)%nat → 0 <= position <= 255 → wf_labels d labels →
  wf_labels d (update_every (makeFilter plat position round) n tr labels).
Proof.
  intros Hr Hp. revert tr labels.
  induction n as [|n IH]; intros tr labels Hwf; simpl; [assumption|].
  apply IH. destruct Hwf as [Hlen Hall]. split.
  - rewrite length_insert. assumption.
  - destruct (Nat.lt_ge_cases tr (length labels)) as [Hlt | Hge].
    + apply Forall_insert; [assumption|].
      apply relaxed_wf; try assumption.
      apply (Forall_lookup_total_1 _ labels tr Hall Hlt).
    + rewrite list_insert_ge by assumption. assumption.
Qed.

(** The scan is the exit-free sweep over the trips it visits: it stops
    after [m] trips, each of which was worse than [position] at [round],
    and, unless it ran into the bound, the next one was not. *)
Lemma update_loop_spec position round F n tr (labels : Labels) :
  ∃ m : nat,
    (m <= n)%nat
    ∧ (∀ j, (tr <= j < tr + m)%nat → getPosition labels j round > position)
    ∧ ((m < n)%nat → getPosition labels (tr + m) round <= position)
    ∧ update_loop position round F n tr labels = update_every F m tr labels.
Proof.
  revert tr labels. induction n as [|n IH]; intros tr labels; simpl.
  - exists 0%nat. repeat split; lia.
  - destruct (Z.gtb_spec (getPosition labels tr round) position) as [Hgt | Hle].
    + destruct (IH (S tr) (<[tr := simd_min_u8 (labels !!! tr) F]> labels))
        as (m & Hm & Hworse & Hstop & Heq).
      assert (Hsame : ∀ j, (tr < j)%nat →
                getPosition (<[tr := simd_min_u8 (labels !!! tr) F]> labels)
                            j round = getPosition labels j round).
      { intros j Hj. unfold getPosition.
        rewrite list_lookup_total_insert_ne by lia. reflexivity. }
      exists (S m). repeat split.
      * lia.
      * intros j Hj. destruct (decide (j = tr)) as [-> | Hne]; [lia|].
        rewrite <- Hsame by lia. apply Hworse. lia.
      * intros Hlt. replace (tr + S m)%nat with (S tr + m)%nat by lia.
        rewrite <- Hsame by lia. apply Hstop. lia.
      * exact Heq.
    + exists 0%nat. repeat split; try lia.
      intros _. rewrite Nat.add_0_r. assumption.
Qed.

(** [update], lane by lane. *)
Lemma update_lanes plat d (labels : Labels) trip position round :
  wf_labels d labels → (0 < round < 16)%nat → 0 <= position <= 255 →
  ∃ m : nat,
    (m <= routeEnd d trip - trip)%nat
    ∧ (∀ j, (trip <= j < trip + m)%nat →
         getPosition labels j round > position)
    ∧ ((m < routeEnd d trip - trip)%nat →
         getPosition labels (trip + m) round <= position)
    ∧ update plat d labels trip position round
      = update_every (makeFilter plat position round) m trip labels
    ∧ ∀ j i : nat, (j < length labels)%nat → (i < 16)%nat →
        (update plat d labels trip position round !!! j) !!! i
        = if bool_decide (trip <= j < trip + m)%nat
             && negb (i <? round - 1)%nat
          then Z.min ((labels !!! j) !!! i) position
          else (labels !!! j) !!! i.
Proof.
  intros Hwf Hr Hp. unfold update.
  destruct (update_loop_spec position round (makeFilter plat position round)
              (routeEnd d trip - trip) trip labels)
    as (m & Hm & Hworse & Hstop & Heq).
  exists m. repeat split; try assumption.
  intros j i Hj Hi. rewrite Heq.
  destruct (bool_decide_reflect (trip <= j < trip + m)%nat) as [Hin | Hout];
    simpl.
  - rewrite update_every_in by assumption.
    rewrite relaxed_lane; try assumption.
    + destruct (i <? round - 1)%nat; reflexivity.
    + destruct Hwf as [_ Hall].
      apply (Forall_lookup_total_1 _ labels j Hall Hj).
  - rewrite update_every_out by assumption. reflexivity.
Qed.

Lemma update_wf plat d (labels : Labels) trip position round :
  wf_labels d labels → (0 < round < 16)%nat → 0 <= position <= 255 →
  wf_labels d (update plat d labels trip position round).
Proof.
  intros Hwf Hr Hp.
  destruct (update_lanes plat d labels trip position round Hwf Hr Hp)
    as (m & _ & _ & _ & -> & _).
  apply update_every_wf; assumption.
Qed.

(** ** The timetable's route ranges *)

Lemma wf_data_trip d (t : nat) :
  wf_data d → (t < numberOfTrips d)%nat → wf_trip d t.
Proof.
  intros Hd Ht. unfold wf_data in Hd. rewrite Forall_seq in Hd.
  apply Hd. lia.
Qed.

Lemma route_range d (t t' : nat) :
  wf_data d → (t < numberOfTrips d)%nat → (t <= t' < routeEnd d t)%nat →
  (t' < numberOfTrips d)%nat ∧ routeEnd d t' = routeEnd d t
  ∧ numberOfStopsInTrip d t' = numberOfStopsInTrip d t.
Proof.
  intros Hd Ht Hr.
  destruct (wf_data_trip d t Hd Ht) as (Hin & Hend & Hall).
  rewrite Forall_seq in Hall.
  destruct (Hall t') as [Hroute Hstops]; [lia|].
  repeat split; [lia | | assumption].
  unfold routeEnd. rewrite Hroute. reflexivity.
Qed.

(** ** The invariant *)

Lemma map_fmap {A B} (f : A → B) (l : list A) : map f l = f <$> l.
Proof. induction l as [|x l IH]; simpl; [reflexivity | now rewrite IH]. Qed.

Lemma defaultLabels_lookup d (t : nat) :
  (t < numberOfTrips d)%nat →
  defaultLabels d !!! t = replicate 16 (to_u8 (numberOfStopsInTrip d t)).
Proof.
  intros Ht. unfold defaultLabels. rewrite map_fmap.
  apply list_lookup_total_correct.
  rewrite list_lookup_fmap, lookup_seq_lt by assumption. reflexivity.
Qed.

Lemma defaultLabels_length d : length (defaultLabels d) = numberOfTrips d.
Proof. unfold defaultLabels. rewrite length_map, length_seq. reflexivity. Qed.

Lemma defaultLabels_lane d (t i : nat) :
  (t < numberOfTrips d)%nat → (i < 16)%nat →
  (defaultLabels d !!! t) !!! i = to_u8 (numberOfStopsInTrip d t).
Proof.
  intros Ht Hi. rewrite defaultLabels_lookup by assumption.
  apply lookup_total_replicate_2. assumption.
Qed.

Lemma defaultLabels_wf d : wf_labels d (defaultLabels d).
Proof.
  split; [apply defaultLabels_length|].
  refine (Forall_lookup_total_2 _ _ _). intros t Ht.
  rewrite defaultLabels_length in Ht.
  rewrite defaultLabels_lookup by assumption. split.
  - apply length_replicate.
  - apply Forall_replicate. unfold to_u8.
    pose proof (Z.mod_pos_bound (numberOfStopsInTrip d t) 256). lia.
Qed.

Lemma roundMonotone_clear d (labels : Labels) :
  roundMonotone (clear d labels).
Proof.
  intros t i Ht Hi. unfold clear in *. rewrite defaultLabels_length in Ht.
  rewrite !defaultLabels_lane by lia. lia.
Qed.

Lemma Inv_clear d (labels : Labels) : wf_data d → Inv d (clear d labels).
Proof.
  intros Hd. split; [apply defaultLabels_wf|]. split.
  - apply roundMonotone_clear.
  - unfold clear. intros t t' i Ht Hr Hi.
    destruct (route_range d t t' Hd Ht Hr) as (Ht' & _ & Hstops).
    rewrite !defaultLabels_lane by lia. rewrite Hstops. lia.
Qed.

Lemma roundMonotone_le (labels : Labels) (t i k : nat) :
  roundMonotone labels → (t < length labels)%nat → (i <= k < 16)%nat →
  (labels !!! t) !!! k <= (labels !!! t) !!! i.
Proof.
  intros Hmono Ht. induction k as [|k IH]; intros Hk.
  - replace i with 0%nat by lia. lia.
  - destruct (decide (i = S k)) as [-> | Hne]; [lia|].
    specialize (Hmono t k Ht). lia.
Qed.

Lemma roundMonotone_update plat d (labels : Labels) trip position round :
  wf_labels d labels → roundMonotone labels →
  (0 < round < 16)%nat → 0 <= position <= 255 →
  roundMonotone (update plat d labels trip position round).
Proof.
  intros Hwf Hmono Hr Hp.
  pose proof (update_wf plat d labels trip position round Hwf Hr Hp) as Hwf'.
  destruct (update_lanes plat d labels trip position round Hwf Hr Hp)
    as (m & _ & _ & _ & _ & Hlanes).
  assert (Hlen : length labels = numberOfTrips d) by apply Hwf.
  assert (Hlen' : length (update plat d labels trip position round)
                  = numberOfTrips d) by apply Hwf'.
  intros j i Hj Hi. rewrite Hlen' in Hj.
  rewrite !Hlanes by lia.
  specialize (Hmono j i ltac:(lia) Hi).
  destruct (bool_decide (trip <= j < trip + m)%nat); simpl; [|lia].
  destruct (Nat.ltb_spec (S i) (round - 1)), (Nat.ltb_spec i (round - 1));
    simpl; lia.
Qed.

Lemma roundMonotone_run plat d (cs : list Call) (labels : Labels) :
  wf_labels d labels → roundMonotone labels → Forall (valid_call d) cs →
  wf_labels d (run plat d labels cs) ∧ roundMonotone (run plat d labels cs).
Proof.
  revert labels.
  induction cs as [|c cs IH]; intros labels Hwf Hmono Hcs; simpl;
    [split; assumption|].
  inversion Hcs as [|? ? (_ & Hround & Hpos) Hcs']; subst.
  apply IH; [| |assumption].
  - apply update_wf; assumption.
  - apply (roundMonotone_update plat d); assumption.
Qed.

Lemma Inv_update plat d (labels : Labels) trip position round :
  wf_data d → Inv d labels →
  (trip < numberOfTrips d)%nat → (0 < round < 16)%nat →
  0 <= position <= 255 →
  Inv d (update plat d labels trip position round).
Proof.
  intros Hd (Hwf & Hmono & Hord) Ht Hr Hp.
  pose proof (update_wf plat d labels trip position round Hwf Hr Hp) as Hwf'.
  destruct (update_lanes plat d labels trip position round Hwf Hr Hp)
    as (m & Hm & Hworse & Hstop & _ & Hlanes).
  assert (Hlen : length labels = numberOfTrips d) by apply Hwf.
  assert (Hlen' : length (update plat d labels trip position round)
                  = numberOfTrips d) by apply Hwf'.
  split; [assumption|]. split.
  - apply (roundMonotone_update plat d); assumption.
  - intros a b i Ha Hb Hi.
    destruct (route_range d a b Hd Ha Hb) as (Hbn & _ & _).
    rewrite !Hlanes by lia.
    pose proof (Hord a b i Ha Hb Hi) as Hab.
    destruct (Nat.ltb_spec i (round - 1)) as [Hlow | Hhigh]; simpl;
      [rewrite !andb_false_r; assumption|].
    rewrite !andb_true_r.
    destruct (bool_decide_reflect (trip <= b < trip + m)%nat) as [Hinb | Houtb],
             (bool_decide_reflect (trip <= a < trip + m)%nat) as [Hina | Houta];
      try lia.
    (* [a] was lowered, [b] lies behind the trip that stopped the scan *)
    destruct (route_range d trip a Hd Ht ltac:(lia)) as (_ & Henda & _).
    assert (Hmlt : (m < routeEnd d trip - trip)%nat) by lia.
    specialize (Hstop Hmlt). unfold getPosition, slotOfRound in Hstop.
    destruct (route_range d trip (trip + m) Hd Ht ltac:(lia))
      as (Hkn & Hendk & _).
    pose proof (Hord (trip + m)%nat b i Hkn ltac:(lia) Hi) as Hkb.
    pose proof (roundMonotone_le labels (trip + m) (round - 1) i Hmono
                  ltac:(lia) ltac:(lia)) as Hki.
    lia.
Qed.

Lemma Inv_run plat d (cs : list Call) (labels : Labels) :
  wf_data d → Inv d labels → Forall (valid_call d) cs →
  Inv d (run plat d labels cs).
Proof.
  intros Hd. revert labels.
  induction cs as [|c cs IH]; intros labels Hinv Hcs; simpl; [assumption|].
  inversion Hcs as [|? ? Hc Hcs']; subst.
  apply IH; [|assumption].
  destruct Hc as (Htrip & Hround & Hpos).
  apply Inv_update; try assumption.
  unfold isTrip in Htrip. apply Nat.ltb_lt. assumption.
Qed.

(** ** Properties of the reached index *)

Lemma list_eq_total {A} `{!Inhabited A} (l1 l2 : list A) :
  length l1 = length l2 →
  (∀ i, (i < length l1)%nat → l1 !!! i = l2 !!! i) → l1 = l2.
Proof.
  intros Hlen Hall. apply list_eq. intros i.
  destruct (Nat.lt_ge_cases i (length l1)) as [Hi | Hi].
  - rewrite (list_lookup_lookup_total_lt l1 i Hi).
    rewrite (list_lookup_lookup_total_lt l2 i) by lia.
    f_equal. apply Hall. assumption.
  - rewrite (lookup_ge_None_2 l1 i Hi).
    rewrite (lookup_ge_None_2 l2 i) by lia. reflexivity.
Qed.

Lemma isTrip_lt d (t : nat) : isTrip d t = true → (t < numberOfTrips d)%nat.
Proof. unfold isTrip. apply Nat.ltb_lt. Qed.

Lemma update_below_round plat d (labels : Labels) trip position round
    (j i : nat) :
  wf_labels d labels → (0 < round < 16)%nat → 0 <= position <= 255 →
  (j < numberOfTrips d)%nat → (i < round - 1)%nat →
  (update plat d labels trip position round !!! j) !!! i
  = (labels !!! j) !!! i.
Proof.
  intros Hwf Hr Hp Hj Hi.
  destruct (update_lanes plat d labels trip position round Hwf Hr Hp)
    as (m & _ & _ & _ & _ & Hlanes).
  destruct Hwf as [Hlen _].
  rewrite Hlanes by lia.
  destruct (Nat.ltb_spec i (round - 1)); [|lia].
  rewrite andb_false_r. reflexivity.
Qed.

Lemma update_le plat d (labels : Labels) trip position round (j i : nat) :
  wf_labels d labels → (0 < round < 16)%nat → 0 <= position <= 255 →
  (j < numberOfTrips d)%nat → (i < 16)%nat →
  (update plat d labels trip position round !!! j) !!! i
  <= (labels !!! j) !!! i.
Proof.
  intros Hwf Hr Hp Hj Hi.
  destruct (update_lanes plat d labels trip position round Hwf Hr Hp)
    as (m & _ & _ & _ & _ & Hlanes).
  destruct Hwf as [Hlen _].
  rewrite Hlanes by lia.
  destruct (_ && _); lia.
Qed.

(** In a state with the invariant, the trips behind the one that stopped
    the scan are left as they are by the filter. *)
Lemma filter_fixes_covered plat d (labels : Labels) trip position round
    (k j : nat) :
  wf_data d → Inv d labels → (trip < numberOfTrips d)%nat →
  (0 < round < 16)%nat → 0 <= position <= 255 →
  (trip <= k < routeEnd d trip)%nat →
  getPosition labels k round <= position →
  (k <= j < routeEnd d trip)%nat →
  simd_min_u8 (labels !!! j) (makeFilter plat position round) = labels !!! j.
Proof.
  intros Hd (Hwf & Hmono & Hord) Ht Hr Hp Hk Hgood Hj.
  destruct (route_range d trip k Hd Ht ltac:(lia)) as (Hkn & Hendk & _).
  destruct (route_range d trip j Hd Ht ltac:(lia)) as (Hjn & _ & _).
  destruct Hwf as [Hlen Hall].
  assert (Hej : wf_elem (labels !!! j)).
  { apply (Forall_lookup_total_1 _ labels j Hall). lia. }
  apply list_eq_total.
  - unfold simd_min_u8. rewrite length_zip_with, makeFilter_length by lia.
    destruct Hej as [-> _]. reflexivity.
  - intros i Hi.
    assert (Hi16 : (i < 16)%nat).
    { unfold simd_min_u8 in Hi.
      rewrite length_zip_with, makeFilter_length in Hi; lia. }
    rewrite relaxed_lane by assumption.
    destruct (Nat.ltb_spec i (round - 1)) as [Hlow | Hhigh]; [reflexivity|].
    apply Z.min_l. unfold getPosition, slotOfRound in Hgood.
    pose proof (Hord k j i Hkn ltac:(lia) Hi16).
    pose proof (roundMonotone_le labels k (round - 1) i Hmono
                  ltac:(lia) ltac:(lia)).
    lia.
Qed.

Lemma exData_wf : wf_data exData.
Proof. by_decision. Qed.

(** C1, as amended.  In every state built from [clear] by calls of
    [update], for a trip [t] that precedes the end of its route's id range,
    [update t p r] makes [alreadyReached t p r'] true for every round [r']
    from [r] to 15, and leaves the positions of trip [t] at the rounds below
    [r] as they were. *)
Theorem C1_propagation plat d (cs : list Call) (labels0 : Labels)
    (t : nat) (p : Z) (r : nat) :
  Forall (valid_call d) cs →
  isTrip d t = true → (t < routeEnd d t)%nat →
  (0 < r < 16)%nat → 0 <= p <= 255 →
  let labels := run plat d (clear d labels0) cs in
  let labels' := update plat d labels t p r in
  (∀ r' : nat, (r <= r' <= 15)%nat → alreadyReached labels' t p r' = true)
  ∧ (∀ r'' : nat, (0 < r'' < r)%nat →
       getPosition labels' t r'' = getPosition labels t r'').
Proof.
  intros Hcs Ht Hend Hr Hp labels labels'.
  apply isTrip_lt in Ht.
  destruct (roundMonotone_run plat d cs (clear d labels0))
    as (Hwf & Hmono);
    [apply defaultLabels_wf | apply roundMonotone_clear | assumption |].
  fold labels in Hwf, Hmono.
  split.
  - intros r' Hr'. unfold alreadyReached, getPosition, slotOfRound.
    apply Z.leb_le. subst labels'.
    destruct (update_lanes plat d labels t p r Hwf Hr Hp)
      as (m & Hm & Hworse & Hstop & _ & Hlanes).
    assert (Hlen : length labels = numberOfTrips d) by apply Hwf.
    rewrite Hlanes by lia.
    destruct (Nat.ltb_spec (r' - 1) (r - 1)); [lia|].
    rewrite andb_true_r.
    destruct (bool_decide_reflect (t <= t < t + m)%nat) as [Hin | Hout];
      [lia|].
    assert (Hm0 : m = 0%nat) by lia. subst m.
    specialize (Hstop ltac:(lia)). rewrite Nat.add_0_r in Hstop.
    unfold getPosition, slotOfRound in Hstop.
    pose proof (roundMonotone_le labels t (r - 1) (r' - 1) Hmono
                  ltac:(lia) ltac:(lia)).
    lia.
  - intros r'' Hr''. unfold getPosition, slotOfRound.
    apply (update_below_round plat d); try assumption; lia.
Qed.

Lemma C1_propagation_witness :
  let labels := run X86 exData (clear exData [])
                  [ {| c_trip := 1; c_position := 3; c_round := 2 |} ] in
  let labels' := update X86 exData labels 0 2 3 in
  (∀ r' : nat, (3 <= r' <= 15)%nat → alreadyReached labels' 0 2 r' = true)
  ∧ (∀ r'' : nat, (0 < r'' < 3)%nat →
       getPosition labels' 0 r'' = getPosition labels 0 r'').
Proof.
  apply (C1_propagation X86 exData
           [ {| c_trip := 1; c_position := 3; c_round := 2 |} ] [] 0 2 3).
  - by_decision.
  - reflexivity.
  - vm_compute. lia.
  - lia.
  - lia.
Defined.

(** C1 fails in a state written through the direct accessor: with the
    position of trip 0 at round 1 set to 2, [update 0 3 1] exits at once,
    and round 2 still holds the stop count 5. *)
Lemma C1_counterexample :
  let labels := setPosition (clear exData []) 0 1 2 in
  wf_data exData ∧ wf_labels exData labels ∧ isTrip exData 0 = true
  ∧ alreadyReached (update X86 exData labels 0 3 1) 0 3 2 = false
  ∧ alreadyReached (update Arm exData labels 0 3 1) 0 3 2 = false.
Proof.
  repeat split; try by_decision; vm_compute; reflexivity.
Qed.

(** C2, as amended.  In every state built from [clear] by calls of
    [update], [update t p r] stores exactly what the filter applied to
    every trip from [t] to the last trip of the route, with no early exit,
    stores; [t] may be any trip of the route, its first one included. *)
Theorem C2_early_exit_equivalence plat d (cs : list Call) (labels0 : Labels)
    (t : nat) (p : Z) (r : nat) :
  wf_data d → Forall (valid_call d) cs →
  isTrip d t = true → (0 < r < 16)%nat → 0 <= p <= 255 →
  let labels := run plat d (clear d labels0) cs in
  update plat d labels t p r = update_no_exit plat d labels t p r.
Proof.
  intros Hd Hcs Ht Hr Hp labels.
  apply isTrip_lt in Ht.
  assert (Hinv : Inv d labels).
  { apply Inv_run; try assumption. apply Inv_clear. assumption. }
  pose proof Hinv as (Hwf & _ & _).
  destruct (update_lanes plat d labels t p r Hwf Hr Hp)
    as (m & Hm & Hworse & Hstop & Heq & _).
  rewrite Heq. unfold update_no_exit.
  apply list_eq_total; [now rewrite !update_every_length|].
  intros j _.
  destruct (decide (t <= j < t + m)%nat) as [Hin | Hout].
  - rewrite !update_every_in by lia. reflexivity.
  - rewrite update_every_out by assumption.
    destruct (decide (t <= j < t + (routeEnd d t - t))%nat) as [Hin' | Hout'].
    + rewrite update_every_in by assumption. symmetry.
      apply (filter_fixes_covered plat d labels t p r (t + m) j);
        try assumption; lia.
    + rewrite update_every_out by assumption. reflexivity.
Qed.

Lemma C2_early_exit_equivalence_witness :
  let labels := run Arm exData (clear exData [])
                  [ {| c_trip := 1; c_position := 3; c_round := 2 |} ] in
  (getPosition labels 0 2 > 4 ∧ getPosition labels 1 2 <= 4)
  ∧ update Arm exData labels 0 4 2 = update_no_exit Arm exData labels 0 4 2.
Proof.
  split; [vm_compute; split; [reflexivity | discriminate]|].
  apply (C2_early_exit_equivalence Arm exData
           [ {| c_trip := 1; c_position := 3; c_round := 2 |} ] [] 0 4 2).
  - by_decision.
  - by_decision.
  - reflexivity.
  - lia.
  - lia.
Defined.

(** C2 fails in a state written through the direct accessor: with the
    position of trip 1 at round 1 set to 2, [update 0 3 1] stops at trip 1,
    while the exit-free sweep lowers rounds 2 to 15 of trip 1 and all of
    trip 2 to 3. *)
Lemma C2_counterexample :
  let labels := setPosition (clear exData []) 1 1 2 in
  wf_data exData ∧ wf_labels exData labels
  ∧ routeBegin exData 0 = 0%nat ∧ routeEnd exData 0 = 3%nat
  ∧ update X86 exData labels 0 3 1
    = [ [3;3;3;3;3;3;3;3;3;3;3;3;3;3;3;3];
        [2;5;5;5;5;5;5;5;5;5;5;5;5;5;5;5];
        [5;5;5;5;5;5;5;5;5;5;5;5;5;5;5;5] ]
  ∧ update_no_exit X86 exData labels 0 3 1
    = [ [3;3;3;3;3;3;3;3;3;3;3;3;3;3;3;3];
        [2;3;3;3;3;3;3;3;3;3;3;3;3;3;3;3];
        [3;3;3;3;3;3;3;3;3;3;3;3;3;3;3;3] ]
  ∧ update X86 exData labels 0 3 1 ≠ update_no_exit X86 exData labels 0 3 1.
Proof.
  repeat split; try by_decision; vm_compute; reflexivity.
Qed.

Lemma run_wf plat d (cs : list Call) (labels : Labels) :
  wf_labels d labels → Forall (valid_call d) cs →
  wf_labels d (run plat d labels cs).
Proof.
  revert labels. induction cs as [|c cs IH]; intros labels Hwf Hcs; simpl;
    [assumption|].
  inversion Hcs as [|? ? (_ & Hround & Hpos) Hcs']; subst.
  apply IH; [|assumption]. apply update_wf; assumption.
Qed.

(** C3.  Whatever calls of [update] follow a state of the index, every
    stored position is afterwards at most what it was: no call raises a
    position of any trip at any round. *)
Theorem C3_positions_never_increase plat d (labels : Labels)
    (cs : list Call) (t r : nat) :
  wf_labels d labels → Forall (valid_call d) cs →
  isTrip d t = true → (0 < r < 16)%nat →
  getPosition (run plat d labels cs) t r <= getPosition labels t r.
Proof.
  intros Hwf Hcs Ht Hr. apply isTrip_lt in Ht. revert labels Hwf.
  induction cs as [|c cs IH]; intros labels Hwf; simpl; [lia|].
  inversion Hcs as [|? ? (_ & Hround & Hpos) Hcs']; subst.
  etransitivity.
  - apply IH; [assumption|]. apply update_wf; assumption.
  - unfold apply_call, getPosition, slotOfRound.
    apply update_le; try assumption. lia.
Qed.

Lemma C3_positions_never_increase_witness :
  getPosition
    (run X86 exData (clear exData [])
       [ {| c_trip := 1; c_position := 3; c_round := 2 |};
         {| c_trip := 0; c_position := 4; c_round := 1 |} ]) 1 4
  <= getPosition (clear exData []) 1 4.
Proof.
  apply C3_positions_never_increase.
  - by_decision.
  - by_decision.
  - reflexivity.
  - lia.
Defined.

(** C4, as amended.  After [clear], the position of every valid trip at
    every round from 1 to 15 is the trip's stop count as a [u_int8_t] holds
    it, that is, modulo 256, and [alreadyReached] is false for every
    position below that stored value.  When the stop count is at most 255
    the stored value is the stop count itself, and [alreadyReached] is false
    for every position below the stop count. *)
Theorem C4_clear_sentinel d (labels : Labels) (t r : nat) :
  isTrip d t = true → (0 < r < 16)%nat →
  getPosition (clear d labels) t r = numberOfStopsInTrip d t mod 256
  ∧ (∀ p : Z, p < numberOfStopsInTrip d t mod 256 →
       alreadyReached (clear d labels) t p r = false)
  ∧ (0 <= numberOfStopsInTrip d t <= 255 →
     getPosition (clear d labels) t r = numberOfStopsInTrip d t
     ∧ ∀ p : Z, p < numberOfStopsInTrip d t →
         alreadyReached (clear d labels) t p r = false).
Proof.
  intros Ht Hr. apply isTrip_lt in Ht.
  assert (Hget : getPosition (clear d labels) t r
                 = numberOfStopsInTrip d t mod 256).
  { unfold getPosition, slotOfRound, clear.
    rewrite defaultLabels_lane by lia. reflexivity. }
  assert (Hfalse : ∀ p : Z, p < numberOfStopsInTrip d t mod 256 →
                     alreadyReached (clear d labels) t p r = false).
  { intros p Hp. unfold alreadyReached. rewrite Hget.
    apply Z.leb_gt. assumption. }
  split; [assumption|]. split; [assumption|].
  intros Hfit. rewrite Z.mod_small in Hget, Hfalse by lia.
  split; assumption.
Qed.

Lemma C4_clear_sentinel_witness :
  getPosition (clear exData []) 0 1 = numberOfStopsInTrip exData 0 mod 256
  ∧ (∀ p : Z, p < numberOfStopsInTrip exData 0 mod 256 →
       alreadyReached (clear exData []) 0 p 1 = false)
  ∧ (0 <= numberOfStopsInTrip exData 0 <= 255 →
     getPosition (clear exData []) 0 1 = numberOfStopsInTrip exData 0
     ∧ ∀ p : Z, p < numberOfStopsInTrip exData 0 →
         alreadyReached (clear exData []) 0 p 1 = false).
Proof.
  apply (C4_clear_sentinel exData [] 0 1).
  - reflexivity.
  - lia.
Defined.

(** C4 fails for a trip with more stops than a [u_int8_t] holds: a valid
    trip with 300 stops has 44 stored after [clear], and position 44, which
    is below the stop count, already counts as reached. *)
Lemma C4_counterexample :
  wf_data exDataLong ∧ isTrip exDataLong 0 = true
  ∧ numberOfStopsInTrip exDataLong 0 = 300
  ∧ getPosition (clear exDataLong []) 0 1 = 44
  ∧ 44 < numberOfStopsInTrip exDataLong 0
  ∧ alreadyReached (clear exDataLong []) 0 44 1 = true.
Proof.
  repeat split; try by_decision; vm_compute; reflexivity.
Qed.

(** C9.  In every state built from [clear] by calls of [update], the
    positions of a trip do not increase with the round: the position at
    round [r + 1] is at most the position at round [r], for [r] from 1 to
    14. *)
Theorem C9_rounds_non_increasing plat d (cs : list Call) (labels0 : Labels)
    (t r : nat) :
  Forall (valid_call d) cs →
  isTrip d t = true → (1 <= r <= 14)%nat →
  let labels := run plat d (clear d labels0) cs in
  getPosition labels t (r + 1) <= getPosition labels t r.
Proof.
  intros Hcs Ht Hr labels. apply isTrip_lt in Ht.
  destruct (roundMonotone_run plat d cs (clear d labels0))
    as ((Hlen & _) & Hmono);
    [apply defaultLabels_wf | apply roundMonotone_clear | assumption |].
  fold labels in Hlen, Hmono.
  unfold getPosition, slotOfRound.
  replace (r + 1 - 1)%nat with (S (r - 1)) by lia.
  apply Hmono; lia.
Qed.

Lemma C9_rounds_non_increasing_witness :
  let labels := run X86 exData (clear exData [])
                  [ {| c_trip := 0; c_position := 2; c_round := 3 |};
                    {| c_trip := 1; c_position := 1; c_round := 7 |} ] in
  getPosition labels 1 (6 + 1) <= getPosition labels 1 6.
Proof.
  apply (C9_rounds_non_increasing X86 exData
           [ {| c_trip := 0; c_position := 2; c_round := 3 |};
             {| c_trip := 1; c_position := 1; c_round := 7 |} ] [] 1 6).
  - by_decision.
  - reflexivity.
  - lia.
Defined.

(** C10.  If the position stored for trip [t] at round [r] is already at
    most [p], then [update t p r] changes nothing: the labels of all trips,
    those of [t] at the rounds above [r] included, are what they were. *)
Theorem C10_update_noop plat d (labels : Labels) (t : nat) (p : Z) (r : nat) :
  getPosition labels t r <= p →
  update plat d labels t p r = labels.
Proof.
  intros Hle. unfold update.
  destruct (routeEnd d t - t)%nat as [|n]; simpl; [reflexivity|].
  destruct (Z.gtb_spec (getPosition labels t r) p); [lia | reflexivity].
Qed.

Lemma C10_update_noop_witness :
  let labels := setPosition (clear exData []) 0 1 2 in
  update X86 exData labels 0 3 1 = labels.
Proof.
  apply (C10_update_noop X86 exData (setPosition (clear exData []) 0 1 2)
           0 3 1).
  vm_compute. discriminate.
Defined.

(** C5, as amended.  Round [r] is kept in slot [r - 1]: the rounds 1 to 15
    have the slots 0 to 14, each its own, and the slot no round has is
    slot 15.  [alreadyReached] does not depend on slot 15, a write through
    the direct accessor changes slot [r - 1] of its trip and nothing else,
    and [update] leaves the slots below [r - 1] of every trip as they
    were. *)
Theorem C5_slot_of_round plat d (labels : Labels) (t : nat) (p : Z)
    (r : nat) (v : Z) :
  wf_labels d labels → isTrip d t = true → (0 < r < 16)%nat →
  0 <= p <= 255 →
  slotOfRound r = (r - 1)%nat ∧ (slotOfRound r < 15)%nat
  ∧ (∀ r' : nat, (0 < r' < 16)%nat → slotOfRound r' = slotOfRound r → r' = r)
  ∧ getPosition labels t r = (labels !!! t) !!! (r - 1)%nat
  ∧ (∀ (t' : nat) (x : Z),
       alreadyReached (<[t' := <[15%nat := x]> (labels !!! t')]> labels) t p r
       = alreadyReached labels t p r)
  ∧ (setPosition labels t r v !!! t) !!! (r - 1)%nat = to_u8 v
  ∧ (∀ t' i : nat, t' ≠ t ∨ i ≠ (r - 1)%nat →
       (setPosition labels t r v !!! t') !!! i = (labels !!! t') !!! i)
  ∧ (∀ t' i : nat, (t' < numberOfTrips d)%nat → (i < r - 1)%nat →
       (update plat d labels t p r !!! t') !!! i = (labels !!! t') !!! i).
Proof.
  intros Hwf Ht Hr Hp. apply isTrip_lt in Ht.
  pose proof Hwf as [Hlen Hall].
  assert (Het : wf_elem (labels !!! t)).
  { apply (Forall_lookup_total_1 _ labels t Hall). lia. }
  unfold slotOfRound.
  split; [reflexivity|]. split; [lia|]. split; [intros; lia|].
  split; [reflexivity|]. split; [|split; [|split]].
  - intros t' x. unfold alreadyReached, getPosition, slotOfRound.
    destruct (decide (t' = t)) as [-> | Hne].
    + rewrite list_lookup_total_insert_eq by lia.
      rewrite list_lookup_total_insert_ne by lia. reflexivity.
    + rewrite list_lookup_total_insert_ne by lia. reflexivity.
  - unfold setPosition, slotOfRound.
    rewrite list_lookup_total_insert_eq by lia.
    apply list_lookup_total_insert_eq. destruct Het as [-> _]. lia.
  - intros t' i Hother. unfold setPosition, slotOfRound.
    destruct (decide (t' = t)) as [-> | Hne].
    + rewrite list_lookup_total_insert_eq by lia.
      apply list_lookup_total_insert_ne. destruct Hother; [easy | lia].
    + rewrite list_lookup_total_insert_ne by lia. reflexivity.
  - intros t' i Ht' Hi.
    apply (update_below_round plat d); assumption.
Qed.

Lemma C5_slot_of_round_witness :
  let labels := clear exData [] in
  slotOfRound 3 = (3 - 1)%nat ∧ (slotOfRound 3 < 15)%nat
  ∧ (∀ r' : nat, (0 < r' < 16)%nat → slotOfRound r' = slotOfRound 3 → r' = 3%nat)
  ∧ getPosition labels 1 3 = (labels !!! 1%nat) !!! (3 - 1)%nat
  ∧ (∀ (t' : nat) (x : Z),
       alreadyReached (<[t' := <[15%nat := x]> (labels !!! t')]> labels) 1 2 3
       = alreadyReached labels 1 2 3)
  ∧ (setPosition labels 1 3 7 !!! 1%nat) !!! (3 - 1)%nat = to_u8 7
  ∧ (∀ t' i : nat, t' ≠ 1%nat ∨ i ≠ (3 - 1)%nat →
       (setPosition labels 1 3 7 !!! t') !!! i = (labels !!! t') !!! i)
  ∧ (∀ t' i : nat, (t' < numberOfTrips exData)%nat → (i < 3 - 1)%nat →
       (update X86 exData labels 1 2 3 !!! t') !!! i = (labels !!! t') !!! i).
Proof.
  apply (C5_slot_of_round X86 exData (clear exData []) 1 2 3 7).
  - by_decision.
  - reflexivity.
  - lia.
  - lia.
Defined.

(** C5 fails at round 1, whose slot is slot 0.  Two states that differ in
    slot 0 of trip 0 only are told apart by [alreadyReached] at round 1; a
    write through the direct accessor at round 1 lands in slot 0; and
    [update] at round 1 lowers slot 0. *)
Lemma C5_counterexample :
  let labels := clear exData [] in
  let labels2 := <[0%nat := <[0%nat := 2]> (labels !!! 0%nat)]> labels in
  alreadyReached labels 0 3 1 = false
  ∧ alreadyReached labels2 0 3 1 = true
  ∧ (labels !!! 0%nat) !!! 0%nat = 5
  ∧ (setPosition labels 0 1 2 !!! 0%nat) !!! 0%nat = 2
  ∧ (update X86 exData labels 0 2 1 !!! 0%nat) !!! 0%nat = 2
  ∧ (update Arm exData labels 0 2 1 !!! 0%nat) !!! 0%nat = 2.
Proof.
  repeat split; vm_compute; reflexivity.
Qed.

(** ** Properties of SIMD16u *)

Lemma land_15_small (i : nat) : (i < 16)%nat → Nat.land i 15 = i.
Proof.
  intros Hi. do 16 (destruct i as [|i]; [reflexivity|]). lia.
Qed.

Lemma cmpeq_min (a b : Z) :
  cmpeq_lane (Z.min a b) a = if a <=? b then ALL_ONES else 0.
Proof.
  unfold cmpeq_lane.
  destruct (Z.eqb_spec (Z.min a b) a), (Z.leb_spec a b); try reflexivity; lia.
Qed.

Lemma cmpeq_max (a b : Z) :
  cmpeq_lane (Z.max a b) a = if a >=? b then ALL_ONES else 0.
Proof.
  unfold cmpeq_lane. rewrite Z.geb_leb.
  destruct (Z.eqb_spec (Z.max a b) a), (Z.leb_spec b a); try reflexivity; lia.
Qed.

Lemma halves_lane (f : Z → Z → Z) (l1 h1 l2 h2 : list Z) (i : nat) :
  length l1 = 8%nat → length h1 = 8%nat →
  length l2 = 8%nat → length h2 = 8%nat → (i < 16)%nat →
  (zip_with f l1 l2 ++ zip_with f h1 h2) !!! i
  = f ((l1 ++ h1) !!! i) ((l2 ++ h2) !!! i).
Proof.
  intros Hl1 Hh1 Hl2 Hh2 Hi.
  destruct (Nat.lt_ge_cases i 8) as [Hlow | Hhigh].
  - rewrite !lookup_total_app_l by (rewrite ?length_zip_with; lia).
    apply lookup_total_zip_with_lanes; lia.
  - rewrite !lookup_total_app_r by (rewrite ?length_zip_with; lia).
    rewrite length_zip_with, Hl1, Hl2.
    apply lookup_total_zip_with_lanes; lia.
Qed.

Section NeonLanes.
Import SIMD16u_NEON.
Variables v o : Holder.
Hypothesis Hv : wf v.
Hypothesis Ho : wf o.
Variable i : nat.
Hypothesis Hi : (i < 16)%nat.

Lemma neon_minmask_lanes :
  lane (fst (minmask v o)) i = Z.min (lane v i) (lane o i)
  ∧ lane (snd (minmask v o)) i
    = if lane v i <=? lane o i then ALL_ONES else 0.
Proof.
  destruct Hv as [Hvl Hvh], Ho as [Hol Hoh].
  unfold lane, arr, minmask, vceqq_u16, vminq_u16. simpl.
  rewrite land_15_small by assumption.
  assert (Hmin : (zip_with Z.min (lo v) (lo o)
                  ++ zip_with Z.min (hi v) (hi o)) !!! i
                 = Z.min ((lo v ++ hi v) !!! i) ((lo o ++ hi o) !!! i))
    by (apply halves_lane; assumption).
  split; [exact Hmin|].
  rewrite halves_lane by (rewrite ?length_zip_with; lia).
  rewrite Hmin. apply cmpeq_min.
Qed.

Lemma neon_maxmask_lanes :
  lane (fst (maxmask v o)) i = Z.max (lane v i) (lane o i)
  ∧ lane (snd (maxmask v o)) i
    = if lane v i >=? lane o i then ALL_ONES else 0.
Proof.
  destruct Hv as [Hvl Hvh], Ho as [Hol Hoh].
  unfold lane, arr, maxmask, vceqq_u16, vmaxq_u16. simpl.
  rewrite land_15_small by assumption.
  assert (Hmax : (zip_with Z.max (lo v) (lo o)
                  ++ zip_with Z.max (hi v) (hi o)) !!! i
                 = Z.max ((lo v ++ hi v) !!! i) ((lo o ++ hi o) !!! i))
    by (apply halves_lane; assumption).
  split; [exact Hmax|].
  rewrite halves_lane by (rewrite ?length_zip_with; lia).
  rewrite Hmax. apply cmpeq_max.
Qed.
End NeonLanes.

Section Avx2Lanes.
Import SIMD16u_AVX2.
Variables v o : Holder.
Hypothesis Hv : wf v.
Hypothesis Ho : wf o.
Variable i : nat.
Hypothesis Hi : (i < 16)%nat.

Lemma avx2_min_lanes :
  lane (fst (min v o)) i = Z.min (lane v i) (lane o i)
  ∧ snd (min v o) !!! i = if lane v i <=? lane o i then ALL_ONES else 0.
Proof.
  unfold wf in Hv, Ho.
  unfold lane, arr, min, _mm256_cmpeq_epi16, _mm256_min_epu16. simpl.
  rewrite land_15_small by assumption.
  assert (Hmin : zip_with Z.min (reg v) (reg o) !!! i
                 = Z.min (reg v !!! i) (reg o !!! i))
    by (apply lookup_total_zip_with_lanes; lia).
  split; [exact Hmin|].
  rewrite lookup_total_zip_with_lanes by (rewrite ?length_zip_with; lia).
  rewrite Hmin. apply cmpeq_min.
Qed.

Lemma avx2_max_lanes :
  lane (fst (max v o)) i = Z.max (lane v i) (lane o i)
  ∧ snd (max v o) !!! i = if lane v i >=? lane o i then ALL_ONES else 0.
Proof.
  unfold wf in Hv, Ho.
  unfold lane, arr, max, _mm256_cmpeq_epi16, _mm256_max_epu16. simpl.
  rewrite land_15_small by assumption.
  assert (Hmax : zip_with Z.max (reg v) (reg o) !!! i
                 = Z.max (reg v !!! i) (reg o !!! i))
    by (apply lookup_total_zip_with_lanes; lia).
  split; [exact Hmax|].
  rewrite lookup_total_zip_with_lanes by (rewrite ?length_zip_with; lia).
  rewrite Hmax. apply cmpeq_max.
Qed.
End Avx2Lanes.

(** C6.  In both variants, the lane-wise minimum leaves [min a_i b_i] in
    every lane [i] of the receiver and returns a mask whose lane [i] is all
    ones when [a_i <= b_i] (the lane was not changed) and zero otherwise;
    the lane-wise maximum does the same with [max] and [a_i >= b_i]. *)
Theorem C6_min_max_masks
    (a b : SIMD16u_NEON.Holder) (a' b' : SIMD16u_AVX2.Holder) (i : nat) :
  SIMD16u_NEON.wf a → SIMD16u_NEON.wf b →
  SIMD16u_AVX2.wf a' → SIMD16u_AVX2.wf b' → (i < 16)%nat →
  (SIMD16u_NEON.lane (fst (SIMD16u_NEON.minmask a b)) i
     = Z.min (SIMD16u_NEON.lane a i) (SIMD16u_NEON.lane b i)
   ∧ SIMD16u_NEON.lane (snd (SIMD16u_NEON.minmask a b)) i
     = (if SIMD16u_NEON.lane a i <=? SIMD16u_NEON.lane b i
        then ALL_ONES else 0)
   ∧ SIMD16u_NEON.lane (fst (SIMD16u_NEON.maxmask a b)) i
     = Z.max (SIMD16u_NEON.lane a i) (SIMD16u_NEON.lane b i)
   ∧ SIMD16u_NEON.lane (snd (SIMD16u_NEON.maxmask a b)) i
     = (if SIMD16u_NEON.lane a i >=? SIMD16u_NEON.lane b i
        then ALL_ONES else 0))
  ∧ (SIMD16u_AVX2.lane (fst (SIMD16u_AVX2.min a' b')) i
     = Z.min (SIMD16u_AVX2.lane a' i) (SIMD16u_AVX2.lane b' i)
   ∧ snd (SIMD16u_AVX2.min a' b') !!! i
     = (if SIMD16u_AVX2.lane a' i <=? SIMD16u_AVX2.lane b' i
        then ALL_ONES else 0)
   ∧ SIMD16u_AVX2.lane (fst (SIMD16u_AVX2.max a' b')) i
     = Z.max (SIMD16u_AVX2.lane a' i) (SIMD16u_AVX2.lane b' i)
   ∧ snd (SIMD16u_AVX2.max a' b') !!! i
     = (if SIMD16u_AVX2.lane a' i >=? SIMD16u_AVX2.lane b' i
        then ALL_ONES else 0)).
Proof.
  intros Ha Hb Ha' Hb' Hi.
  pose proof (neon_minmask_lanes a b Ha Hb i Hi) as [? ?].
  pose proof (neon_maxmask_lanes a b Ha Hb i Hi) as [? ?].
  pose proof (avx2_min_lanes a' b' Ha' Hb' i Hi) as [? ?].
  pose proof (avx2_max_lanes a' b' Ha' Hb' i Hi) as [? ?].
  repeat split; assumption.
Qed.

Lemma C6_min_max_masks_witness :
  let a := SIMD16u_NEON.load exLanesA in
  let b := SIMD16u_NEON.load exLanesB in
  let a' := SIMD16u_AVX2.load exLanesA in
  let b' := SIMD16u_AVX2.load exLanesB in
  (SIMD16u_NEON.lane (fst (SIMD16u_NEON.minmask a b)) 10
     = Z.min (SIMD16u_NEON.lane a 10) (SIMD16u_NEON.lane b 10)
   ∧ SIMD16u_NEON.lane (snd (SIMD16u_NEON.minmask a b)) 10
     = (if SIMD16u_NEON.lane a 10 <=? SIMD16u_NEON.lane b 10
        then ALL_ONES else 0)
   ∧ SIMD16u_NEON.lane (fst (SIMD16u_NEON.maxmask a b)) 10
     = Z.max (SIMD16u_NEON.lane a 10) (SIMD16u_NEON.lane b 10)
   ∧ SIMD16u_NEON.lane (snd (SIMD16u_NEON.maxmask a b)) 10
     = (if SIMD16u_NEON.lane a 10 >=? SIMD16u_NEON.lane b 10
        then ALL_ONES else 0))
  ∧ (SIMD16u_AVX2.lane (fst (SIMD16u_AVX2.min a' b')) 10
     = Z.min (SIMD16u_AVX2.lane a' 10) (SIMD16u_AVX2.lane b' 10)
   ∧ snd (SIMD16u_AVX2.min a' b') !!! 10%nat
     = (if SIMD16u_AVX2.lane a' 10 <=? SIMD16u_AVX2.lane b' 10
        then ALL_ONES else 0)
   ∧ SIMD16u_AVX2.lane (fst (SIMD16u_AVX2.max a' b')) 10
     = Z.max (SIMD16u_AVX2.lane a' 10) (SIMD16u_AVX2.lane b' 10)
   ∧ snd (SIMD16u_AVX2.max a' b') !!! 10%nat
     = (if SIMD16u_AVX2.lane a' 10 >=? SIMD16u_AVX2.lane b' 10
        then ALL_ONES else 0)).
Proof.
  apply (C6_min_max_masks (SIMD16u_NEON.load exLanesA)
           (SIMD16u_NEON.load exLanesB) (SIMD16u_AVX2.load exLanesA)
           (SIMD16u_AVX2.load exLanesB) 10).
  - split; reflexivity.
  - split; reflexivity.
  - reflexivity.
  - reflexivity.
  - lia.
Defined.

(** ** Properties of the allocator *)

Section Allocate.

Variable w : Z.
Hypothesis Hw : 0 < w.

Lemma size_wrap_small (x : Z) : 0 <= x <= SIZE_MAX w → size_wrap w x = x.
Proof.
  unfold SIZE_MAX, size_wrap. intros Hx. apply Z.mod_small. lia.
Qed.

Lemma max_size_spec (sizeofT n : Z) :
  0 < sizeofT → (n > max_size w sizeofT ↔ n * sizeofT > SIZE_MAX w).
Proof.
  intros Hs. unfold max_size, size_wrap.
  assert (Hpow : 0 < 2 ^ w) by (apply Z.pow_pos_nonneg; lia).
  replace ((0 - 1) mod 2 ^ w) with (SIZE_MAX w).
  2:{ unfold SIZE_MAX.
      apply (Z.mod_unique (0 - 1) (2 ^ w) (-1)); lia. }
  pose proof (Z.div_mod (SIZE_MAX w) sizeofT ltac:(lia)) as Hdm.
  pose proof (Z.mod_pos_bound (SIZE_MAX w) sizeofT Hs) as Hrem.
  split; intros H; nia.
Qed.

(** [x & ~(2^k - 1)] in [w]-bit arithmetic clears the low [k] bits. *)
Lemma land_not_low_bits (x k : Z) :
  0 <= k < w → 0 <= x <= SIZE_MAX w →
  Z.land x (size_wrap w (Z.lnot (size_wrap w (2 ^ k - 1))))
  = x - x mod 2 ^ k.
Proof.
  intros Hk Hx.
  assert (Hlt : 2 ^ k < 2 ^ w) by (apply Z.pow_lt_mono_r; lia).
  assert (Hpk : 0 < 2 ^ k) by (apply Z.pow_pos_nonneg; lia).
  rewrite (size_wrap_small (2 ^ k - 1)) by (unfold SIZE_MAX; lia).
  replace (2 ^ k - 1) with (Z.ones k) by (rewrite Z.ones_equiv; lia).
  unfold size_wrap. rewrite <- (Z.land_ones _ w) by lia.
  rewrite (Z.land_comm (Z.lnot (Z.ones k))), Z.land_assoc.
  rewrite (Z.land_comm x (Z.ones w)), <- Z.land_assoc.
  rewrite <- Z.ldiff_land, Z.ldiff_ones_r by lia.
  rewrite Z.shiftr_div_pow2, Z.shiftl_mul_pow2 by lia.
  rewrite Z.land_comm, Z.land_ones by lia.
  pose proof (Z.div_mod x (2 ^ k) ltac:(lia)) as Hdm.
  pose proof (Z.mod_pos_bound x (2 ^ k) Hpk) as Hrem.
  pose proof (Z.div_pos x (2 ^ k) ltac:(lia) Hpk) as Hq.
  unfold SIZE_MAX in Hx.
  set (q := x / 2 ^ k) in *. set (r := x mod 2 ^ k) in *.
  set (P := 2 ^ k) in *.
  rewrite Z.mod_small; [lia | nia].
Qed.

End Allocate.

Lemma allocate_request plat (w sizeofT Alignment : Z) (alloc : Request → Z)
    (n : Z) (req : Request) :
  0 < w → 0 < sizeofT → 0 <= n →
  fst (allocate plat w sizeofT Alignment alloc n) = Some req →
  n ≠ 0 ∧ n * sizeofT <= SIZE_MAX w
  ∧ req = match plat with
          | Arm => {| req_alignment := Alignment;
                      req_size :=
                        Z.land (size_wrap w (n * sizeofT + Alignment - 1))
                          (size_wrap w
                             (Z.lnot (size_wrap w (Alignment - 1)))) |}
          | X86 => {| req_alignment := Alignment; req_size := n * sizeofT |}
          end.
Proof.
  intros Hw Hs Hn. unfold allocate.
  destruct (Z.eqb_spec n 0) as [-> | Hn0]; [discriminate|].
  destruct (Z.gtb_spec n (max_size w sizeofT)) as [Hgt | Hle]; [discriminate|].
  assert (Hfit : n * sizeofT <= SIZE_MAX w).
  { destruct (Z_le_gt_dec (n * sizeofT) (SIZE_MAX w)) as [? | Hover];
      [assumption|].
    apply (max_size_spec w Hw sizeofT n Hs) in Hover. lia. }
  rewrite (size_wrap_small w (n * sizeofT)) by nia.
  intros Hreq. repeat split; try assumption.
  destruct plat;
    match type of Hreq with
    | fst (if ?c then _ else _) = _ => destruct c
    end; simpl in Hreq; congruence.
Qed.

(** C7, as amended.  For every [n > 0] that [allocate] accepts, the NEON
    build asks [aligned_alloc] for [(total + Alignment - 1) & ~(Alignment - 1)]
    bytes, a multiple of the alignment, and the least such multiple that is
    at least [total = n * sizeof(T)] whenever [total + Alignment - 1] fits
    [std::size_t]; the x86 build drops that value and asks [_mm_malloc] for
    [total] bytes as they are. *)
Theorem C7_request_size plat (w sizeofT k : Z) (alloc : Request → Z)
    (n : Z) (req : Request) :
  0 < w → 0 < sizeofT → 0 <= k < w → 0 < n →
  fst (allocate plat w sizeofT (2 ^ k) alloc n) = Some req →
  req_alignment req = 2 ^ k
  ∧ match plat with
    | Arm =>
        (2 ^ k | req_size req)
        ∧ (n * sizeofT + 2 ^ k - 1 <= SIZE_MAX w →
           n * sizeofT <= req_size req < n * sizeofT + 2 ^ k)
    | X86 => req_size req = n * sizeofT
    end.
Proof.
  intros Hw Hs Hk Hn Hreq.
  destruct (allocate_request plat w sizeofT (2 ^ k) alloc n req
              Hw Hs ltac:(lia) Hreq) as (_ & Hfit & ->).
  assert (Hpk : 0 < 2 ^ k) by (apply Z.pow_pos_nonneg; lia).
  assert (Hpw : 0 < 2 ^ w) by (apply Z.pow_pos_nonneg; lia).
  destruct plat; simpl; (split; [reflexivity|]); [|reflexivity].
  set (x := size_wrap w (n * sizeofT + 2 ^ k - 1)).
  assert (Hx : 0 <= x <= SIZE_MAX w).
  { unfold x, size_wrap, SIZE_MAX.
    pose proof (Z.mod_pos_bound (n * sizeofT + 2 ^ k - 1) (2 ^ w) Hpw). lia. }
  rewrite (land_not_low_bits w Hw x k Hk Hx).
  pose proof (Z.div_mod x (2 ^ k) ltac:(lia)) as Hdm.
  pose proof (Z.mod_pos_bound x (2 ^ k) Hpk) as Hrem.
  split.
  - exists (x / 2 ^ k). lia.
  - intros Hnowrap.
    assert (Hxe : x = n * sizeofT + 2 ^ k - 1).
    { unfold x. apply size_wrap_small. nia. }
    lia.
Qed.

Lemma C7_request_size_witness :
  req_alignment {| req_alignment := 16; req_size := 32 |} = 2 ^ 4
  ∧ (2 ^ 4 | req_size {| req_alignment := 16; req_size := 32 |})
  ∧ (3 * 8 + 2 ^ 4 - 1 <= SIZE_MAX 64 →
     3 * 8 <= req_size {| req_alignment := 16; req_size := 32 |}
           < 3 * 8 + 2 ^ 4).
Proof.
  apply (C7_request_size Arm 64 8 4 (fun _ => 4096) 3
           {| req_alignment := 16; req_size := 32 |}).
  - lia.
  - lia.
  - lia.
  - lia.
  - reflexivity.
Defined.

(** C7 fails in the x86 build: for three elements of 8 bytes and an
    alignment of 16, [_mm_malloc] is asked for 24 bytes, which is not a
    multiple of 16. *)
Lemma C7_counterexample :
  fst (allocate X86 64 8 16 (fun _ => 4096) 3)
  = Some {| req_alignment := 16; req_size := 24 |}
  ∧ ¬ (16 | 24).
Proof.
  split; [reflexivity|]. intros [q Hq]. lia.
Qed.

(** C8.  [allocate n] ends in [std::length_error] exactly when
    [n * sizeof(T)] does not fit [std::size_t], which is when [n] exceeds
    [max_size()], and the platform is then not asked.  For every other
    [n > 0] it asks the platform's allocator, for [n * sizeof(T)] bytes in
    the x86 build and for the rounded size in the NEON build, and it ends
    in [std::bad_alloc] exactly when the answer to that request is [NULL].
    For [n = 0] it returns [NULL] without asking the platform and without
    an error. *)
Theorem C8_allocate_failures plat (w sizeofT Alignment : Z)
    (alloc : Request → Z) (n : Z) :
  0 < w → 0 < sizeofT → 0 <= n <= SIZE_MAX w →
  let res := allocate plat w sizeofT Alignment alloc n in
  let req :=
    match plat with
    | Arm => {| req_alignment := Alignment;
                req_size :=
                  Z.land (size_wrap w (n * sizeofT + Alignment - 1))
                    (size_wrap w (Z.lnot (size_wrap w (Alignment - 1)))) |}
    | X86 => {| req_alignment := Alignment; req_size := n * sizeofT |}
    end in
  (snd res = ThrowLengthError ↔ n * sizeofT > SIZE_MAX w)
  ∧ (snd res = ThrowLengthError ↔ n > max_size w sizeofT)
  ∧ (n * sizeofT > SIZE_MAX w → fst res = None)
  ∧ (n ≠ 0 → n * sizeofT <= SIZE_MAX w → fst res = Some req)
  ∧ (snd res = ThrowBadAlloc
     ↔ n ≠ 0 ∧ n * sizeofT <= SIZE_MAX w ∧ alloc req = 0)
  ∧ (n = 0 → res = (None, ReturnNull)).
Proof.
  intros Hw Hs Hn res req.
  pose proof (max_size_spec w Hw sizeofT n Hs) as Hmax.
  assert (Hpw : 0 < 2 ^ w) by (apply Z.pow_pos_nonneg; lia).
  subst res. unfold allocate.
  destruct (Z.eqb_spec n 0) as [Hn0 | Hn0].
  { simpl. subst n. unfold SIZE_MAX in *.
    repeat split; try discriminate; try lia; try tauto. }
  destruct (Z.gtb_spec n (max_size w sizeofT)) as [Hgt | Hle].
  { simpl. repeat split; try discriminate; try tauto; try lia. }
  assert (Hfit : n * sizeofT <= SIZE_MAX w) by lia.
  rewrite (size_wrap_small w (n * sizeofT)) by nia.
  fold req.
  destruct (Z.eqb_spec (alloc req) 0) as [Hnull | Hmem]; simpl.
  - repeat split; try discriminate; try lia; try tauto.
  - repeat split; try discriminate; try lia; try tauto.
Qed.

Lemma C8_allocate_failures_witness :
  let res := allocate X86 64 16 16 (fun _ => 0) 5 in
  let req := {| req_alignment := 16; req_size := 5 * 16 |} in
  (snd res = ThrowLengthError ↔ 5 * 16 > SIZE_MAX 64)
  ∧ (snd res = ThrowLengthError ↔ 5 > max_size 64 16)
  ∧ (5 * 16 > SIZE_MAX 64 → fst res = None)
  ∧ (5 ≠ 0 → 5 * 16 <= SIZE_MAX 64 → fst res = Some req)
  ∧ (snd res = ThrowBadAlloc
     ↔ 5 ≠ 0 ∧ 5 * 16 <= SIZE_MAX 64 ∧ (fun _ : Request => 0) req = 0)
  ∧ (5 = 0 → res = (None, ReturnNull)).
Proof.
  apply (C8_allocate_failures X86 64 16 16 (fun _ => 0) 5).
  - lia.
  - lia.
  - unfold SIZE_MAX. lia.
Defined.

(** ** Further properties of the reached index *)

Lemma update_skip plat d (labels : Labels) (t : nat) (p : Z) (r : nat) :
  getPosition labels t r <= p → update plat d labels t p r = labels.
Proof.
  intros Hle. unfold update.
  destruct (routeEnd d t - t)%nat as [|n]; simpl; [reflexivity|].
  destruct (Z.gtb_spec (getPosition labels t r) p); [lia | reflexivity].
Qed.

Lemma update_at_round plat d (labels : Labels) (t : nat) (p : Z) (r : nat) :
  wf_labels d labels → (t < numberOfTrips d)%nat → (t < routeEnd d t)%nat →
  (0 < r < 16)%nat → 0 <= p <= 255 →
  getPosition (update plat d labels t p r) t r
  = Z.min (getPosition labels t r) p.
Proof.
  intros Hwf Ht Hend Hr Hp.
  destruct (update_lanes plat d labels t p r Hwf Hr Hp)
    as (m & Hm & _ & Hstop & _ & Hlanes).
  assert (Hlen : length labels = numberOfTrips d) by apply Hwf.
  unfold getPosition, slotOfRound in *.
  rewrite Hlanes by lia.
  rewrite Nat.ltb_irrefl, andb_true_r.
  destruct (bool_decide_reflect (t <= t < t + m)%nat) as [Hin | Hout];
    [reflexivity|].
  assert (Hm0 : m = 0%nat) by lia. subst m.
  specialize (Hstop ltac:(lia)). rewrite Nat.add_0_r in Hstop. lia.
Qed.

(** In a state with the invariant the scan and the exit-free sweep store
    the same. *)
Lemma Inv_update_sweep plat d (labels : Labels) (t : nat) (p : Z) (r : nat) :
  wf_data d → Inv d labels → (t < numberOfTrips d)%nat →
  (0 < r < 16)%nat → 0 <= p <= 255 →
  update plat d labels t p r = update_no_exit plat d labels t p r.
Proof.
  intros Hd Hinv Ht Hr Hp.
  pose proof Hinv as (Hwf & _ & _).
  destruct (update_lanes plat d labels t p r Hwf Hr Hp)
    as (m & Hm & Hworse & Hstop & Heq & _).
  rewrite Heq. unfold update_no_exit.
  apply list_eq_total; [now rewrite !update_every_length|].
  intros j _.
  destruct (decide (t <= j < t + m)%nat) as [Hin | Hout].
  - rewrite !update_every_in by lia. reflexivity.
  - rewrite update_every_out by assumption.
    destruct (decide (t <= j < t + (routeEnd d t - t))%nat) as [Hin' | Hout'].
    + rewrite update_every_in by assumption. symmetry.
      apply (filter_fixes_covered plat d labels t p r (t + m) j);
        try assumption; lia.
    + rewrite update_every_out by assumption. reflexivity.
Qed.

(** One call, lane by lane, in a state with the invariant. *)
Lemma Inv_update_lane plat d (labels : Labels) (c : Call) (j i : nat) :
  wf_data d → Inv d labels → valid_call d c →
  (j < numberOfTrips d)%nat → (i < 16)%nat →
  (apply_call plat d labels c !!! j) !!! i
  = if covers d j (S i) c
    then Z.min ((labels !!! j) !!! i) (c_position c)
    else (labels !!! j) !!! i.
Proof.
  intros Hd Hinv (Htrip & Hr & Hp) Hj Hi. apply isTrip_lt in Htrip.
  unfold apply_call, covers.
  rewrite (Inv_update_sweep plat d) by assumption.
  unfold update_no_exit.
  destruct Hinv as ((Hlen & Hall) & _ & _).
  pose proof (wf_data_trip d (c_trip c) Hd Htrip) as (Hrange & _ & _).
  destruct (Nat.leb_spec (c_trip c) j) as [Hlow | Hlow]; simpl.
  2:{ rewrite update_every_out by lia. reflexivity. }
  destruct (Nat.ltb_spec j (routeEnd d (c_trip c))) as [Hhigh | Hhigh]; simpl.
  2:{ rewrite update_every_out by lia. reflexivity. }
  rewrite update_every_in by lia.
  rewrite relaxed_lane; try assumption.
  - destruct (Nat.ltb_spec i (c_round c - 1)), (Nat.leb_spec (c_round c) (S i));
      try reflexivity; lia.
  - apply (Forall_lookup_total_1 _ labels j Hall). lia.
Qed.

Lemma fold_min_start (x p : Z) (l : list Z) :
  fold_right Z.min (Z.min x p) l = Z.min p (fold_right Z.min x l).
Proof. induction l as [|y l IH]; simpl; lia. Qed.

Lemma run_lane plat d (cs : list Call) (labels : Labels) (t i : nat) :
  wf_data d → Inv d labels → Forall (valid_call d) cs →
  (t < numberOfTrips d)%nat → (i < 16)%nat →
  (run plat d labels cs !!! t) !!! i
  = fold_right Z.min ((labels !!! t) !!! i)
      (map c_position (List.filter (covers d t (S i)) cs)).
Proof.
  intros Hd Hinv Hcs Ht Hi. revert labels Hinv.
  induction cs as [|c cs IH]; intros labels Hinv; simpl; [reflexivity|].
  inversion Hcs as [|? ? Hc Hcs']; subst.
  rewrite IH; [|assumption|].
  2:{ destruct Hc as (Htrip & Hr & Hp). apply Inv_update; try assumption.
      apply isTrip_lt. assumption. }
  rewrite (Inv_update_lane plat d labels c t i) by assumption.
  destruct (covers d t (S i) c); simpl; [|reflexivity].
  apply fold_min_start.
Qed.

(** X1.  For the rounds 1 to 15 the NEON loop and the x86 table give the
    same mask: lane [i] is 0xFF for [i < round - 1] and 0 for the others. *)
Theorem X1_makeMask_both_builds (round i : nat) :
  (0 < round < 16)%nat → (i < 16)%nat →
  makeMask_neon round = makeMask_sse round
  ∧ makeMask_neon round !!! i = if (i <? round - 1)%nat then 255 else 0.
Proof.
  intros Hr Hi. split; [apply makeMask_backends_agree; assumption|].
  change (makeMask_neon round) with (makeMask Arm round).
  rewrite makeMask_spec by assumption.
  destruct (Nat.ltb_spec i (round - 1)) as [Hlt | Hge].
  - rewrite lookup_total_app_l by (rewrite length_replicate; lia).
    apply lookup_total_replicate_2. lia.
  - rewrite lookup_total_app_r by (rewrite length_replicate; lia).
    apply lookup_total_replicate_2. rewrite length_replicate. lia.
Qed.

Lemma X1_makeMask_both_builds_witness :
  makeMask_neon 9 = makeMask_sse 9
  ∧ makeMask_neon 9 !!! 8%nat = if (8 <? 9 - 1)%nat then 255 else 0.
Proof.
  apply (X1_makeMask_both_builds 9 8); lia.
Defined.

(** X2.  In every state, also one written through the direct accessor,
    [update t p r] leaves the minimum of the old position and [p] at trip
    [t] and round [r]; so [alreadyReached t p r] is true afterwards. *)
Theorem X2_update_stores_minimum plat d (labels : Labels) (t : nat) (p : Z)
    (r : nat) :
  wf_labels d labels → isTrip d t = true → (t < routeEnd d t)%nat →
  (0 < r < 16)%nat → 0 <= p <= 255 →
  getPosition (update plat d labels t p r) t r
  = Z.min (getPosition labels t r) p
  ∧ alreadyReached (update plat d labels t p r) t p r = true.
Proof.
  intros Hwf Ht Hend Hr Hp. apply isTrip_lt in Ht.
  pose proof (update_at_round plat d labels t p r Hwf Ht Hend Hr Hp) as Hmin.
  split; [assumption|].
  unfold alreadyReached. rewrite Hmin. apply Z.leb_le. lia.
Qed.

Lemma X2_update_stores_minimum_witness :
  let labels := setPosition (clear exData []) 0 2 1 in
  getPosition (update Arm exData labels 0 3 1) 0 1
  = Z.min (getPosition labels 0 1) 3
  ∧ alreadyReached (update Arm exData labels 0 3 1) 0 3 1 = true.
Proof.
  apply (X2_update_stores_minimum Arm exData
           (setPosition (clear exData []) 0 2 1) 0 3 1).
  - by_decision.
  - reflexivity.
  - vm_compute. lia.
  - lia.
  - lia.
Defined.

(** X3.  [update] is idempotent in every state: the same call made a
    second time changes nothing. *)
Theorem X3_update_idempotent plat d (labels : Labels) (t : nat) (p : Z)
    (r : nat) :
  wf_labels d labels → isTrip d t = true →
  (0 < r < 16)%nat → 0 <= p <= 255 →
  update plat d (update plat d labels t p r) t p r
  = update plat d labels t p r.
Proof.
  intros Hwf Ht Hr Hp. apply isTrip_lt in Ht.
  destruct (Nat.lt_ge_cases t (routeEnd d t)) as [Hend | Hend].
  - apply update_skip.
    rewrite update_at_round by assumption. lia.
  - unfold update at 2 3.
    replace (routeEnd d t - t)%nat with 0%nat by lia. simpl.
    unfold update. replace (routeEnd d t - t)%nat with 0%nat by lia.
    reflexivity.
Qed.

Lemma X3_update_idempotent_witness :
  let labels := setPosition (clear exData []) 1 1 2 in
  update X86 exData (update X86 exData labels 0 3 1) 0 3 1
  = update X86 exData labels 0 3 1.
Proof.
  apply (X3_update_idempotent X86 exData
           (setPosition (clear exData []) 1 1 2) 0 3 1).
  - by_decision.
  - reflexivity.
  - lia.
  - lia.
Defined.

(** X4.  [update t p r] writes only to trips from [t] up to the last trip
    of the route of [t]: the label vector of every earlier trip and of
    every trip of another route is left as it was, in every state. *)
Theorem X4_update_frame plat d (labels : Labels) (t : nat) (p : Z)
    (r j : nat) :
  ¬ (t <= j < routeEnd d t)%nat →
  update plat d labels t p r !!! j = labels !!! j.
Proof.
  intros Hout. unfold update.
  destruct (update_loop_spec p r (makeFilter plat p r)
              (routeEnd d t - t) t labels) as (m & Hm & _ & _ & ->).
  apply update_every_out. lia.
Qed.

Lemma X4_update_frame_witness :
  update X86 exData (clear exData []) 1 2 1 !!! 0%nat
  = clear exData [] !!! 0%nat.
Proof.
  apply (X4_update_frame X86 exData (clear exData []) 1 2 1 0).
  vm_compute. lia.
Defined.

(** X5.  In every state built from [clear] by calls of [update], what a
    trip has reached at a round, every later trip of its route has reached
    at that round and at every later round. *)
Theorem X5_reached_by_later_trips plat d (cs : list Call) (labels0 : Labels)
    (t t' : nat) (p : Z) (r r' : nat) :
  wf_data d → Forall (valid_call d) cs →
  isTrip d t = true → (t <= t' < routeEnd d t)%nat →
  (0 < r)%nat → (r <= r' <= 15)%nat →
  let labels := run plat d (clear d labels0) cs in
  alreadyReached labels t p r = true → alreadyReached labels t' p r' = true.
Proof.
  intros Hd Hcs Ht Ht' Hr Hr' labels. apply isTrip_lt in Ht.
  assert (Hinv : Inv d labels).
  { apply Inv_run; try assumption. apply Inv_clear. assumption. }
  destruct Hinv as ((Hlen & _) & Hmono & Hord).
  destruct (route_range d t t' Hd Ht Ht') as (Ht'n & _ & _).
  unfold alreadyReached, getPosition, slotOfRound.
  rewrite !Z.leb_le. intros Hreached.
  pose proof (Hord t t' (r - 1)%nat Ht Ht' ltac:(lia)).
  pose proof (roundMonotone_le labels t' (r - 1) (r' - 1) Hmono
                ltac:(lia) ltac:(lia)).
  lia.
Qed.

Lemma X5_reached_by_later_trips_witness :
  let labels := run X86 exData2 (clear exData2 [])
                  [ {| c_trip := 0; c_position := 2; c_round := 3 |} ] in
  alreadyReached labels 0 2 3 = true ∧ alreadyReached labels 2 2 7 = true.
Proof.
  split; [reflexivity|].
  apply (X5_reached_by_later_trips X86 exData2
           [ {| c_trip := 0; c_position := 2; c_round := 3 |} ] [] 0 2 2 3 7).
  - by_decision.
  - by_decision.
  - reflexivity.
  - vm_compute. lia.
  - lia.
  - lia.
  - reflexivity.
Defined.

(** X6.  After [clear] and any calls of [update], the position of trip [t]
    at round [r] is the least of the trip's stop count (as stored) and the
    positions of the calls made for [t] or an earlier trip of its route at
    round [r] or an earlier round. *)
Theorem X6_position_is_least_covering plat d (cs : list Call)
    (labels0 : Labels) (t r : nat) :
  wf_data d → Forall (valid_call d) cs →
  isTrip d t = true → (0 < r < 16)%nat →
  getPosition (run plat d (clear d labels0) cs) t r
  = bestPosition d cs t r (to_u8 (numberOfStopsInTrip d t)).
Proof.
  intros Hd Hcs Ht Hr. apply isTrip_lt in Ht.
  unfold getPosition, slotOfRound, bestPosition.
  rewrite (run_lane plat d cs (clear d labels0) t (r - 1));
    try assumption; [| apply Inv_clear; assumption | lia].
  unfold clear. rewrite defaultLabels_lane by lia.
  replace (S (r - 1)) with r by lia. reflexivity.
Qed.

Lemma X6_position_is_least_covering_witness :
  getPosition
    (run Arm exData2 (clear exData2 [])
       [ {| c_trip := 1; c_position := 3; c_round := 2 |};
         {| c_trip := 0; c_position := 4; c_round := 1 |};
         {| c_trip := 3; c_position := 1; c_round := 1 |} ]) 2 5
  = bestPosition exData2
       [ {| c_trip := 1; c_position := 3; c_round := 2 |};
         {| c_trip := 0; c_position := 4; c_round := 1 |};
         {| c_trip := 3; c_position := 1; c_round := 1 |} ] 2 5
       (to_u8 (numberOfStopsInTrip exData2 2)).
Proof.
  apply X6_position_is_least_covering.
  - by_decision.
  - by_decision.
  - reflexivity.
  - lia.
Defined.

Lemma fold_min_choice (x : Z) (l : list Z) :
  fold_right Z.min x l = x ∨ fold_right Z.min x l ∈ l.
Proof.
  induction l as [|y l IH]; simpl; [left; reflexivity|].
  destruct (Z.min_spec y (fold_right Z.min x l)) as [[_ ->] | [_ ->]].
  - right. apply list_elem_of_here.
  - destruct IH as [IH | IH]; [left; assumption|].
    right. apply list_elem_of_further. assumption.
Qed.

(** X7.  After [clear] and any calls of [update], a stored position is
    either the trip's stop count (as stored) or a position that one of the
    calls passed: [update] never makes up a value. *)
Theorem X7_positions_come_from_calls plat d (cs : list Call)
    (labels0 : Labels) (t r : nat) :
  wf_data d → Forall (valid_call d) cs →
  isTrip d t = true → (0 < r < 16)%nat →
  let x := getPosition (run plat d (clear d labels0) cs) t r in
  x = to_u8 (numberOfStopsInTrip d t)
  ∨ ∃ c, c ∈ cs ∧ covers d t r c = true ∧ x = c_position c.
Proof.
  intros Hd Hcs Ht Hr x. apply isTrip_lt in Ht.
  assert (Hx : x = bestPosition d cs t r (to_u8 (numberOfStopsInTrip d t))).
  { subst x. unfold getPosition, slotOfRound, bestPosition.
    rewrite (run_lane plat d cs (clear d labels0) t (r - 1));
      try assumption; [| apply Inv_clear; assumption | lia].
    unfold clear. rewrite defaultLabels_lane by lia.
    replace (S (r - 1)) with r by lia. reflexivity. }
  unfold bestPosition in Hx.
  destruct (fold_min_choice (to_u8 (numberOfStopsInTrip d t))
              (map c_position (List.filter (covers d t r) cs)))
    as [Hs | Hin].
  - left. congruence.
  - right. rewrite <- Hx in Hin.
    apply list_elem_of_In, in_map_iff in Hin.
    destruct Hin as (c & Hpos & Hc). apply filter_In in Hc.
    destruct Hc as [Hc Hcov].
    exists c. repeat split; [apply list_elem_of_In | | ]; auto.
Qed.

Lemma X7_positions_come_from_calls_witness :
  let cs := [ {| c_trip := 1; c_position := 3; c_round := 2 |};
              {| c_trip := 0; c_position := 4; c_round := 1 |} ] in
  let x := getPosition (run X86 exData2 (clear exData2 []) cs) 2 5 in
  x = to_u8 (numberOfStopsInTrip exData2 2)
  ∨ ∃ c, c ∈ cs ∧ covers exData2 2 5 c = true ∧ x = c_position c.
Proof.
  apply (X7_positions_come_from_calls X86 exData2
           [ {| c_trip := 1; c_position := 3; c_round := 2 |};
             {| c_trip := 0; c_position := 4; c_round := 1 |} ] [] 2 5).
  - by_decision.
  - by_decision.
  - reflexivity.
  - lia.
Defined.

Lemma fold_min_covering_perm (f : Call → bool) (x : Z) (cs cs' : list Call) :
  cs ≡ₚ cs' →
  fold_right Z.min x (map c_position (List.filter f cs))
  = fold_right Z.min x (map c_position (List.filter f cs')).
Proof.
  induction 1 as [|c l l' _ IH|c c' l|l l' l'' _ IH1 _ IH2]; simpl.
  - reflexivity.
  - destruct (f c); simpl; rewrite IH; reflexivity.
  - destruct (f c), (f c'); simpl; lia.
  - congruence.
Qed.

(** X8.  After [clear], the order of the calls of [update] does not
    matter: two sequences with the same calls, in any order, leave the
    same labels. *)
Theorem X8_update_order_irrelevant plat d (cs cs' : list Call)
    (labels0 : Labels) :
  wf_data d → Forall (valid_call d) cs → cs ≡ₚ cs' →
  run plat d (clear d labels0) cs = run plat d (clear d labels0) cs'.
Proof.
  intros Hd Hcs Hperm.
  assert (Hcs' : Forall (valid_call d) cs').
  { rewrite <- Hperm. assumption. }
  pose proof (Inv_clear d labels0 Hd) as Hinv.
  pose proof (run_wf plat d cs _ (proj1 Hinv) Hcs) as [Hlen Hall].
  pose proof (run_wf plat d cs' _ (proj1 Hinv) Hcs') as [Hlen' Hall'].
  apply list_eq_total; [lia|].
  intros t Ht. rewrite Hlen in Ht.
  pose proof (Forall_lookup_total_1 _ _ t Hall ltac:(lia)) as [He _].
  pose proof (Forall_lookup_total_1 _ _ t Hall' ltac:(lia)) as [He' _].
  apply list_eq_total; [lia|].
  intros i Hi. rewrite He in Hi.
  rewrite !(run_lane plat d) by assumption.
  apply fold_min_covering_perm. assumption.
Qed.

Lemma X8_update_order_irrelevant_witness :
  run Arm exData2 (clear exData2 [])
    [ {| c_trip := 1; c_position := 3; c_round := 2 |};
      {| c_trip := 0; c_position := 4; c_round := 1 |} ]
  = run Arm exData2 (clear exData2 [])
      [ {| c_trip := 0; c_position := 4; c_round := 1 |};
        {| c_trip := 1; c_position := 3; c_round := 2 |} ].
Proof.
  apply X8_update_order_irrelevant.
  - by_decision.
  - by_decision.
  - apply perm_swap.
Defined.

(** ** Further properties of SIMD16u *)

Lemma land_15_mod (i : nat) : Nat.land i 15 = (i mod 16)%nat.
Proof. change 15%nat with (Nat.ones 4). apply Nat.land_ones. Qed.

Lemma mod_16_lt (i : nat) : (i mod 16 < 16)%nat.
Proof. apply Nat.mod_upper_bound. lia. Qed.

Lemma lanes3_length f (a b c : list Z) (n : nat) :
  length a = n → length b = n → length c = n →
  length (lanes3 f a b c) = n.
Proof.
  revert b c n. induction a as [|x a IH]; intros [|y b] [|z c] n;
    simpl; intros; try lia.
  destruct n as [|n]; [lia|]. f_equal. apply IH; lia.
Qed.

Lemma lookup_total_lanes3 f (a b c : list Z) (i : nat) :
  (i < length a)%nat → length b = length a → length c = length a →
  lanes3 f a b c !!! i = f (a !!! i) (b !!! i) (c !!! i).
Proof.
  revert b c i. induction a as [|x a IH]; intros [|y b] [|z c] i;
    simpl; intros; try lia.
  destruct i as [|i]; [reflexivity|].
  change ((x :: a) !!! S i) with (a !!! i).
  change ((y :: b) !!! S i) with (b !!! i).
  change ((z :: c) !!! S i) with (c !!! i).
  apply IH; lia.
Qed.

Lemma u16_lane (l : list Z) (i : nat) :
  u16_lanes l → (i < length l)%nat → 0 <= l !!! i < 65536.
Proof. intros Hall Hi. apply (Forall_lookup_total_1 _ l i Hall Hi). Qed.

Lemma neon_u16_lane (v : SIMD16u_NEON.Holder) (i : nat) :
  SIMD16u_NEON.wf v → u16_lanes (SIMD16u_NEON.arr v) → (i < 16)%nat →
  0 <= SIMD16u_NEON.lane v i < 65536.
Proof.
  intros [Hlo Hhi] Hall Hi. unfold SIMD16u_NEON.lane.
  rewrite land_15_small by assumption.
  apply u16_lane; [assumption|].
  unfold SIMD16u_NEON.arr. rewrite length_app. lia.
Qed.

Lemma avx2_u16_lane (v : SIMD16u_AVX2.Holder) (i : nat) :
  SIMD16u_AVX2.wf v → u16_lanes (SIMD16u_AVX2.arr v) → (i < 16)%nat →
  0 <= SIMD16u_AVX2.lane v i < 65536.
Proof.
  intros Hwf Hall Hi. unfold SIMD16u_AVX2.lane.
  rewrite land_15_small by assumption.
  apply u16_lane; [assumption|]. unfold SIMD16u_AVX2.wf in Hwf.
  unfold SIMD16u_AVX2.arr. lia.
Qed.

(** X9.  [store] followed by [load], and [load] followed by [store], give
    back what was there: storing a loaded vector writes the 16 values it
    was loaded from and leaves the rest of the buffer alone, and loading
    what was stored gives the vector; in both variants. *)
Theorem X9_load_store_round_trip
    (v : SIMD16u_NEON.Holder) (v' : SIMD16u_AVX2.Holder)
    (src dst : list Z) :
  SIMD16u_NEON.wf v → SIMD16u_AVX2.wf v' →
  (16 <= length src)%nat → (16 <= length dst)%nat →
  (SIMD16u_NEON.store (SIMD16u_NEON.load src) dst = take 16 src ++ drop 16 dst
   ∧ SIMD16u_NEON.store (SIMD16u_NEON.load src) src = src
   ∧ SIMD16u_NEON.load (SIMD16u_NEON.store v dst) = v)
  ∧ (SIMD16u_AVX2.store (SIMD16u_AVX2.load src) dst
       = take 16 src ++ drop 16 dst
     ∧ SIMD16u_AVX2.store (SIMD16u_AVX2.load src) src = src
     ∧ SIMD16u_AVX2.load (SIMD16u_AVX2.store v' dst) = v').
Proof.
  intros [Hlo Hhi] Hreg Hsrc Hdst.
  assert (Hneon : ∀ mem : list Z,
    SIMD16u_NEON.store (SIMD16u_NEON.load src) mem
    = take 16 src ++ drop 16 mem).
  { intros mem.
    unfold SIMD16u_NEON.store, SIMD16u_NEON.load, SIMD16u_NEON.vst1q_u16.
    simpl SIMD16u_NEON.lo. simpl SIMD16u_NEON.hi.
    assert (Hl : length (take 8 src) = 8%nat) by (apply length_take_le; lia).
    rewrite take_0, app_nil_l.
    rewrite (take_app_length' (take 8 src)) by (symmetry; exact Hl).
    rewrite (drop_app_ge (take 8 src)) by lia.
    rewrite Hl, drop_drop.
    rewrite app_assoc, take_take_drop. reflexivity. }
  split; [|].
  - split; [apply Hneon|]. split.
    + rewrite Hneon. apply take_drop.
    + unfold SIMD16u_NEON.store, SIMD16u_NEON.load, SIMD16u_NEON.vst1q_u16.
      destruct v as [lo hi]; simpl in *.
      rewrite (take_app_length' lo) by lia.
      f_equal.
      * apply take_app_length'. lia.
      * rewrite (drop_app_length' lo) by lia.
        apply take_app_length'. lia.
  - unfold SIMD16u_AVX2.store, SIMD16u_AVX2.load,
      SIMD16u_AVX2._mm256_storeu_si256. simpl SIMD16u_AVX2.reg.
    split; [reflexivity|]. split; [apply take_drop|].
    destruct v' as [reg]; unfold SIMD16u_AVX2.wf in Hreg; simpl in *.
    f_equal. apply take_app_length'. lia.
Qed.

Lemma X9_load_store_round_trip_witness :
  (SIMD16u_NEON.store (SIMD16u_NEON.load exLanesA) exLanesB
     = take 16 exLanesA ++ drop 16 exLanesB
   ∧ SIMD16u_NEON.store (SIMD16u_NEON.load exLanesA) exLanesA = exLanesA
   ∧ SIMD16u_NEON.load (SIMD16u_NEON.store (SIMD16u_NEON.load exLanesB)
                          exLanesB)
     = SIMD16u_NEON.load exLanesB)
  ∧ (SIMD16u_AVX2.store (SIMD16u_AVX2.load exLanesA) exLanesB
       = take 16 exLanesA ++ drop 16 exLanesB
     ∧ SIMD16u_AVX2.store (SIMD16u_AVX2.load exLanesA) exLanesA = exLanesA
     ∧ SIMD16u_AVX2.load (SIMD16u_AVX2.store (SIMD16u_AVX2.load exLanesB)
                            exLanesB)
       = SIMD16u_AVX2.load exLanesB).
Proof.
  apply (X9_load_store_round_trip (SIMD16u_NEON.load exLanesB)
           (SIMD16u_AVX2.load exLanesB) exLanesA exLanesB).
  - split; reflexivity.
  - reflexivity.
  - simpl. lia.
  - simpl. lia.
Defined.

(** X10.  [operator[]] takes its index modulo 16: after a write at index
    [i], a read at index [j] gives the written value when [i] and [j] agree
    modulo 16 and the old lane otherwise; in both variants. *)
Theorem X10_lane_write_then_read
    (v : SIMD16u_NEON.Holder) (v' : SIMD16u_AVX2.Holder) (i j : nat) (x : Z) :
  SIMD16u_NEON.wf v → SIMD16u_AVX2.wf v' →
  SIMD16u_NEON.lane (SIMD16u_NEON.set_lane v i x) j
  = (if decide (i mod 16 = j mod 16)%nat then x else SIMD16u_NEON.lane v j)
  ∧ SIMD16u_AVX2.lane (SIMD16u_AVX2.set_lane v' i x) j
    = (if decide (i mod 16 = j mod 16)%nat then x
       else SIMD16u_AVX2.lane v' j).
Proof.
  intros [Hlo Hhi] Hreg.
  pose proof (mod_16_lt i) as Hi. pose proof (mod_16_lt j) as Hj.
  unfold SIMD16u_NEON.set_lane, SIMD16u_NEON.lane, SIMD16u_NEON.arr,
    SIMD16u_AVX2.set_lane, SIMD16u_AVX2.lane, SIMD16u_AVX2.arr.
  rewrite !land_15_mod.
  remember (i mod 16)%nat as ki eqn:Hki. remember (j mod 16)%nat as kj eqn:Hkj.
  clear Hki Hkj.
  split.
  - destruct (Nat.ltb_spec ki 8) as [Hi8 | Hi8];
      cbn [SIMD16u_NEON.lo SIMD16u_NEON.hi].
    + destruct (Nat.lt_ge_cases kj 8) as [Hj8 | Hj8].
      * rewrite !lookup_total_app_l by (rewrite ?length_insert; lia).
        rewrite list_lookup_total_insert.
        repeat case_decide; try reflexivity; lia.
      * rewrite !lookup_total_app_r by (rewrite ?length_insert; lia).
        rewrite length_insert. case_decide; [lia | reflexivity].
    + destruct (Nat.lt_ge_cases kj 8) as [Hj8 | Hj8].
      * rewrite !lookup_total_app_l by lia.
        case_decide; [lia | reflexivity].
      * rewrite !lookup_total_app_r by lia.
        rewrite list_lookup_total_insert.
        repeat case_decide; try reflexivity; lia.
  - unfold SIMD16u_AVX2.wf in Hreg. cbn [SIMD16u_AVX2.reg].
    rewrite list_lookup_total_insert.
    repeat case_decide; try reflexivity; lia.
Qed.

Lemma X10_lane_write_then_read_witness :
  SIMD16u_NEON.lane
    (SIMD16u_NEON.set_lane (SIMD16u_NEON.load exLanesA) 19 77) 35
  = (if decide (19 mod 16 = 35 mod 16)%nat then 77
     else SIMD16u_NEON.lane (SIMD16u_NEON.load exLanesA) 35)
  ∧ SIMD16u_AVX2.lane
      (SIMD16u_AVX2.set_lane (SIMD16u_AVX2.load exLanesA) 19 77) 35
    = (if decide (19 mod 16 = 35 mod 16)%nat then 77
       else SIMD16u_AVX2.lane (SIMD16u_AVX2.load exLanesA) 35).
Proof.
  apply (X10_lane_write_then_read (SIMD16u_NEON.load exLanesA)
           (SIMD16u_AVX2.load exLanesA) 19 35 77).
  - split; reflexivity.
  - reflexivity.
Defined.

Lemma wrap16_add_sub (x y : Z) :
  0 <= x < 65536 → wrap16 (wrap16 (x + y) - y) = x.
Proof.
  intros Hx. unfold wrap16.
  rewrite Zminus_mod_idemp_l.
  replace (x + y - y) with x by lia. apply Z.mod_small. assumption.
Qed.

Lemma wrap16_sub_add (x y : Z) :
  0 <= x < 65536 → wrap16 (wrap16 (x - y) + y) = x.
Proof.
  intros Hx. unfold wrap16.
  rewrite Zplus_mod_idemp_l.
  replace (x - y + y) with x by lia. apply Z.mod_small. assumption.
Qed.

Lemma neon_zip_lane (f : Z → Z → Z) (v o : SIMD16u_NEON.Holder) (i : nat) :
  SIMD16u_NEON.wf v → SIMD16u_NEON.wf o → (i < 16)%nat →
  SIMD16u_NEON.lane
    {| SIMD16u_NEON.lo := zip_with f (SIMD16u_NEON.lo v) (SIMD16u_NEON.lo o);
       SIMD16u_NEON.hi := zip_with f (SIMD16u_NEON.hi v) (SIMD16u_NEON.hi o) |}
    i
  = f (SIMD16u_NEON.lane v i) (SIMD16u_NEON.lane o i).
Proof.
  intros [Hvl Hvh] [Hol Hoh] Hi.
  unfold SIMD16u_NEON.lane, SIMD16u_NEON.arr. simpl.
  rewrite land_15_small by assumption.
  apply halves_lane; assumption.
Qed.

Lemma neon_zip_wf (f : Z → Z → Z) (v o : SIMD16u_NEON.Holder) :
  SIMD16u_NEON.wf v → SIMD16u_NEON.wf o →
  SIMD16u_NEON.wf
    {| SIMD16u_NEON.lo := zip_with f (SIMD16u_NEON.lo v) (SIMD16u_NEON.lo o);
       SIMD16u_NEON.hi := zip_with f (SIMD16u_NEON.hi v) (SIMD16u_NEON.hi o) |}.
Proof.
  intros [Hvl Hvh] [Hol Hoh]. split; simpl; rewrite length_zip_with; lia.
Qed.

Lemma avx2_zip_lane (f : Z → Z → Z) (v o : SIMD16u_AVX2.Holder) (i : nat) :
  SIMD16u_AVX2.wf v → SIMD16u_AVX2.wf o → (i < 16)%nat →
  SIMD16u_AVX2.lane
    {| SIMD16u_AVX2.reg := zip_with f (SIMD16u_AVX2.reg v) (SIMD16u_AVX2.reg o) |}
    i
  = f (SIMD16u_AVX2.lane v i) (SIMD16u_AVX2.lane o i).
Proof.
  unfold SIMD16u_AVX2.wf. intros Hv Ho Hi.
  unfold SIMD16u_AVX2.lane, SIMD16u_AVX2.arr. simpl.
  rewrite land_15_small by assumption.
  apply lookup_total_zip_with_lanes; lia.
Qed.

Lemma neon_add_lane (v o : SIMD16u_NEON.Holder) (i : nat) :
  SIMD16u_NEON.wf v → SIMD16u_NEON.wf o → (i < 16)%nat →
  SIMD16u_NEON.lane (SIMD16u_NEON.add v o) i
  = wrap16 (SIMD16u_NEON.lane v i + SIMD16u_NEON.lane o i).
Proof.
  intros. unfold SIMD16u_NEON.add, SIMD16u_NEON.vaddq_u16.
  rewrite neon_zip_lane by assumption. reflexivity.
Qed.

Lemma neon_sub_lane (v o : SIMD16u_NEON.Holder) (i : nat) :
  SIMD16u_NEON.wf v → SIMD16u_NEON.wf o → (i < 16)%nat →
  SIMD16u_NEON.lane (SIMD16u_NEON.sub v o) i
  = wrap16 (SIMD16u_NEON.lane v i - SIMD16u_NEON.lane o i).
Proof.
  intros. unfold SIMD16u_NEON.sub, SIMD16u_NEON.vsubq_u16.
  rewrite neon_zip_lane by assumption. reflexivity.
Qed.

Lemma neon_add_sub_wf (v o : SIMD16u_NEON.Holder) :
  SIMD16u_NEON.wf v → SIMD16u_NEON.wf o →
  SIMD16u_NEON.wf (SIMD16u_NEON.add v o)
  ∧ SIMD16u_NEON.wf (SIMD16u_NEON.sub v o).
Proof. intros. split; apply neon_zip_wf; assumption. Qed.

Lemma avx2_add_lane (v o : SIMD16u_AVX2.Holder) (i : nat) :
  SIMD16u_AVX2.wf v → SIMD16u_AVX2.wf o → (i < 16)%nat →
  SIMD16u_AVX2.lane (SIMD16u_AVX2.add v o) i
  = wrap16 (SIMD16u_AVX2.lane v i + SIMD16u_AVX2.lane o i).
Proof.
  intros. unfold SIMD16u_AVX2.add, SIMD16u_AVX2._mm256_add_epi16.
  rewrite avx2_zip_lane by assumption. reflexivity.
Qed.

Lemma avx2_sub_lane (v o : SIMD16u_AVX2.Holder) (i : nat) :
  SIMD16u_AVX2.wf v → SIMD16u_AVX2.wf o → (i < 16)%nat →
  SIMD16u_AVX2.lane (SIMD16u_AVX2.sub v o) i
  = wrap16 (SIMD16u_AVX2.lane v i - SIMD16u_AVX2.lane o i).
Proof.
  intros. unfold SIMD16u_AVX2.sub, SIMD16u_AVX2._mm256_sub_epi16.
  rewrite avx2_zip_lane by assumption. reflexivity.
Qed.

Lemma avx2_add_sub_wf (v o : SIMD16u_AVX2.Holder) :
  SIMD16u_AVX2.wf v → SIMD16u_AVX2.wf o →
  SIMD16u_AVX2.wf (SIMD16u_AVX2.add v o)
  ∧ SIMD16u_AVX2.wf (SIMD16u_AVX2.sub v o).
Proof.
  unfold SIMD16u_AVX2.wf. intros Hv Ho.
  split; simpl;
    unfold SIMD16u_AVX2._mm256_add_epi16, SIMD16u_AVX2._mm256_sub_epi16;
    rewrite length_zip_with; lia.
Qed.

(** X11.  Lane arithmetic wraps at [2^16], and [operator-] undoes
    [operator+] (and the other way round) in every lane, overflow or not;
    in both variants. *)
Theorem X11_add_sub_inverse
    (a b : SIMD16u_NEON.Holder) (a' b' : SIMD16u_AVX2.Holder) (i : nat) :
  SIMD16u_NEON.wf a → SIMD16u_NEON.wf b →
  SIMD16u_AVX2.wf a' → SIMD16u_AVX2.wf b' →
  u16_lanes (SIMD16u_NEON.arr a) → u16_lanes (SIMD16u_AVX2.arr a') →
  (i < 16)%nat →
  (SIMD16u_NEON.lane (SIMD16u_NEON.add a b) i
     = (SIMD16u_NEON.lane a i + SIMD16u_NEON.lane b i) mod 65536
   ∧ SIMD16u_NEON.lane (SIMD16u_NEON.sub (SIMD16u_NEON.add a b) b) i
     = SIMD16u_NEON.lane a i
   ∧ SIMD16u_NEON.lane (SIMD16u_NEON.add (SIMD16u_NEON.sub a b) b) i
     = SIMD16u_NEON.lane a i)
  ∧ (SIMD16u_AVX2.lane (SIMD16u_AVX2.add a' b') i
       = (SIMD16u_AVX2.lane a' i + SIMD16u_AVX2.lane b' i) mod 65536
     ∧ SIMD16u_AVX2.lane (SIMD16u_AVX2.sub (SIMD16u_AVX2.add a' b') b') i
       = SIMD16u_AVX2.lane a' i
     ∧ SIMD16u_AVX2.lane (SIMD16u_AVX2.add (SIMD16u_AVX2.sub a' b') b') i
       = SIMD16u_AVX2.lane a' i).
Proof.
  intros Ha Hb Ha' Hb' Hra Hra' Hi.
  pose proof (neon_u16_lane a i Ha Hra Hi) as Hx.
  pose proof (avx2_u16_lane a' i Ha' Hra' Hi) as Hx'.
  destruct (neon_add_sub_wf a b Ha Hb) as [Hadd Hsub].
  destruct (avx2_add_sub_wf a' b' Ha' Hb') as [Hadd' Hsub'].
  split; repeat split.
  - apply neon_add_lane; assumption.
  - rewrite neon_sub_lane, neon_add_lane by assumption.
    apply wrap16_add_sub. assumption.
  - rewrite neon_add_lane, neon_sub_lane by assumption.
    apply wrap16_sub_add. assumption.
  - apply avx2_add_lane; assumption.
  - rewrite avx2_sub_lane, avx2_add_lane by assumption.
    apply wrap16_add_sub. assumption.
  - rewrite avx2_add_lane, avx2_sub_lane by assumption.
    apply wrap16_sub_add. assumption.
Qed.

Lemma X11_add_sub_inverse_witness :
  let a := SIMD16u_NEON.load exLanesA in
  let b := SIMD16u_NEON.load exLanesB in
  let a' := SIMD16u_AVX2.load exLanesA in
  let b' := SIMD16u_AVX2.load exLanesB in
  (SIMD16u_NEON.lane (SIMD16u_NEON.add a b) 10
     = (SIMD16u_NEON.lane a 10 + SIMD16u_NEON.lane b 10) mod 65536
   ∧ SIMD16u_NEON.lane (SIMD16u_NEON.sub (SIMD16u_NEON.add a b) b) 10
     = SIMD16u_NEON.lane a 10
   ∧ SIMD16u_NEON.lane (SIMD16u_NEON.add (SIMD16u_NEON.sub a b) b) 10
     = SIMD16u_NEON.lane a 10)
  ∧ (SIMD16u_AVX2.lane (SIMD16u_AVX2.add a' b') 10
       = (SIMD16u_AVX2.lane a' 10 + SIMD16u_AVX2.lane b' 10) mod 65536
     ∧ SIMD16u_AVX2.lane (SIMD16u_AVX2.sub (SIMD16u_AVX2.add a' b') b') 10
       = SIMD16u_AVX2.lane a' 10
     ∧ SIMD16u_AVX2.lane (SIMD16u_AVX2.add (SIMD16u_AVX2.sub a' b') b') 10
       = SIMD16u_AVX2.lane a' 10).
Proof.
  apply (X11_add_sub_inverse (SIMD16u_NEON.load exLanesA)
           (SIMD16u_NEON.load exLanesB) (SIMD16u_AVX2.load exLanesA)
           (SIMD16u_AVX2.load exLanesB) 10).
  - split; reflexivity.
  - split; reflexivity.
  - reflexivity.
  - reflexivity.
  - by_decision.
  - by_decision.
  - lia.
Defined.

Lemma halves_lane3 (f : Z → Z → Z → Z) (l1 h1 l2 h2 l3 h3 : list Z)
    (i : nat) :
  length l1 = 8%nat → length h1 = 8%nat →
  length l2 = 8%nat → length h2 = 8%nat →
  length l3 = 8%nat → length h3 = 8%nat → (i < 16)%nat →
  (lanes3 f l1 l2 l3 ++ lanes3 f h1 h2 h3) !!! i
  = f ((l1 ++ h1) !!! i) ((l2 ++ h2) !!! i) ((l3 ++ h3) !!! i).
Proof.
  intros Hl1 Hh1 Hl2 Hh2 Hl3 Hh3 Hi.
  assert (Hlen : length (lanes3 f l1 l2 l3) = 8%nat)
    by (apply lanes3_length; assumption).
  destruct (Nat.lt_ge_cases i 8) as [Hlow | Hhigh].
  - rewrite !lookup_total_app_l by lia.
    apply lookup_total_lanes3; lia.
  - rewrite !lookup_total_app_r by lia.
    rewrite Hlen, Hl1, Hl2, Hl3.
    apply lookup_total_lanes3; lia.
Qed.

Lemma vbsl_lane_ones (a b : Z) :
  0 <= a < 65536 → 0 <= b < 65536 →
  SIMD16u_NEON.vbsl_lane ALL_ONES a b = a.
Proof.
  intros Ha Hb. unfold SIMD16u_NEON.vbsl_lane, ALL_ONES.
  change 65535 with (Z.ones 16).
  rewrite (Z.land_comm (Z.ones 16) a), Z.land_ones by lia.
  rewrite (Z.land_comm (Z.lnot (Z.ones 16)) b), <- Z.ldiff_land.
  rewrite Z.ldiff_ones_r by lia.
  rewrite Z.shiftr_div_pow2 by lia.
  change (2 ^ 16) with 65536.
  rewrite (Z.div_small b 65536) by lia.
  rewrite Z.shiftl_0_l, Z.lor_0_r. apply Z.mod_small. assumption.
Qed.

Lemma vbsl_lane_zero (a b : Z) : SIMD16u_NEON.vbsl_lane 0 a b = b.
Proof.
  unfold SIMD16u_NEON.vbsl_lane.
  rewrite Z.land_0_l, Z.lor_0_l.
  change (Z.lnot 0) with (-1). apply Z.land_m1_l.
Qed.

Lemma blendv_lane_ones (a b : Z) : SIMD16u_AVX2.blendv_lane a b ALL_ONES = b.
Proof.
  unfold SIMD16u_AVX2.blendv_lane, ALL_ONES.
  change (Z.testbit 65535 7) with true. change (Z.testbit 65535 15) with true.
  cbv iota. pose proof (Z.div_mod b 256 ltac:(lia)). lia.
Qed.

Lemma blendv_lane_zero (a b : Z) : SIMD16u_AVX2.blendv_lane a b 0 = a.
Proof.
  unfold SIMD16u_AVX2.blendv_lane. rewrite !Z.testbit_0_l.
  pose proof (Z.div_mod a 256 ltac:(lia)). lia.
Qed.

Lemma neon_blend_lane (v o m : SIMD16u_NEON.Holder) (i : nat) :
  SIMD16u_NEON.wf v → SIMD16u_NEON.wf o → SIMD16u_NEON.wf m → (i < 16)%nat →
  SIMD16u_NEON.lane (SIMD16u_NEON.blend v o m) i
  = SIMD16u_NEON.vbsl_lane (SIMD16u_NEON.lane m i) (SIMD16u_NEON.lane v i)
      (SIMD16u_NEON.lane o i).
Proof.
  intros [Hvl Hvh] [Hol Hoh] [Hml Hmh] Hi.
  unfold SIMD16u_NEON.lane, SIMD16u_NEON.arr, SIMD16u_NEON.blend,
    SIMD16u_NEON.vbslq_u16.
  cbn [SIMD16u_NEON.lo SIMD16u_NEON.hi].
  rewrite land_15_small by assumption.
  apply halves_lane3; assumption.
Qed.

Lemma avx2_blend_lane (v o : SIMD16u_AVX2.Holder) (m : list Z) (i : nat) :
  SIMD16u_AVX2.wf v → SIMD16u_AVX2.wf o → length m = 16%nat → (i < 16)%nat →
  SIMD16u_AVX2.lane (SIMD16u_AVX2.blend v o m) i
  = SIMD16u_AVX2.blendv_lane (SIMD16u_AVX2.lane o i) (SIMD16u_AVX2.lane v i)
      (m !!! i).
Proof.
  unfold SIMD16u_AVX2.wf. intros Hv Ho Hm Hi.
  unfold SIMD16u_AVX2.lane, SIMD16u_AVX2.arr, SIMD16u_AVX2.blend,
    SIMD16u_AVX2._mm256_blendv_epi8.
  cbn [SIMD16u_AVX2.reg].
  rewrite land_15_small by assumption.
  apply lookup_total_lanes3; lia.
Qed.

(** X12.  [blend] keeps the receiver's lane where the mask lane is all
    ones and takes the other vector's lane where the mask lane is zero; in
    both variants. *)
Theorem X12_blend_selects
    (v o m : SIMD16u_NEON.Holder) (v' o' : SIMD16u_AVX2.Holder)
    (m' : list Z) (i : nat) :
  SIMD16u_NEON.wf v → SIMD16u_NEON.wf o → SIMD16u_NEON.wf m →
  SIMD16u_AVX2.wf v' → SIMD16u_AVX2.wf o' → length m' = 16%nat →
  u16_lanes (SIMD16u_NEON.arr v) → u16_lanes (SIMD16u_NEON.arr o) →
  (i < 16)%nat →
  (SIMD16u_NEON.lane m i = ALL_ONES →
     SIMD16u_NEON.lane (SIMD16u_NEON.blend v o m) i = SIMD16u_NEON.lane v i)
  ∧ (SIMD16u_NEON.lane m i = 0 →
     SIMD16u_NEON.lane (SIMD16u_NEON.blend v o m) i = SIMD16u_NEON.lane o i)
  ∧ (m' !!! i = ALL_ONES →
     SIMD16u_AVX2.lane (SIMD16u_AVX2.blend v' o' m') i
     = SIMD16u_AVX2.lane v' i)
  ∧ (m' !!! i = 0 →
     SIMD16u_AVX2.lane (SIMD16u_AVX2.blend v' o' m') i
     = SIMD16u_AVX2.lane o' i).
Proof.
  intros Hv Ho Hm Hv' Ho' Hm' Hrv Hro Hi.
  pose proof (neon_u16_lane v i Hv Hrv Hi).
  pose proof (neon_u16_lane o i Ho Hro Hi).
  rewrite neon_blend_lane, avx2_blend_lane by assumption.
  repeat split; intros ->.
  - apply vbsl_lane_ones; assumption.
  - apply vbsl_lane_zero.
  - apply blendv_lane_ones.
  - apply blendv_lane_zero.
Qed.

Lemma X12_blend_selects_witness :
  let v := SIMD16u_NEON.load exLanesA in
  let o := SIMD16u_NEON.load exLanesB in
  let m := SIMD16u_NEON.cmpeq v o in
  let v' := SIMD16u_AVX2.load exLanesA in
  let o' := SIMD16u_AVX2.load exLanesB in
  let m' := SIMD16u_AVX2.reg (SIMD16u_AVX2.cmpeq v' o') in
  (SIMD16u_NEON.lane m 4 = ALL_ONES →
     SIMD16u_NEON.lane (SIMD16u_NEON.blend v o m) 4 = SIMD16u_NEON.lane v 4)
  ∧ (SIMD16u_NEON.lane m 4 = 0 →
     SIMD16u_NEON.lane (SIMD16u_NEON.blend v o m) 4 = SIMD16u_NEON.lane o 4)
  ∧ (m' !!! 4%nat = ALL_ONES →
     SIMD16u_AVX2.lane (SIMD16u_AVX2.blend v' o' m') 4
     = SIMD16u_AVX2.lane v' 4)
  ∧ (m' !!! 4%nat = 0 →
     SIMD16u_AVX2.lane (SIMD16u_AVX2.blend v' o' m') 4
     = SIMD16u_AVX2.lane o' 4).
Proof.
  apply (X12_blend_selects (SIMD16u_NEON.load exLanesA)
           (SIMD16u_NEON.load exLanesB)
           (SIMD16u_NEON.cmpeq (SIMD16u_NEON.load exLanesA)
              (SIMD16u_NEON.load exLanesB))
           (SIMD16u_AVX2.load exLanesA) (SIMD16u_AVX2.load exLanesB)
           (SIMD16u_AVX2.reg
              (SIMD16u_AVX2.cmpeq (SIMD16u_AVX2.load exLanesA)
                 (SIMD16u_AVX2.load exLanesB))) 4).
  - split; reflexivity.
  - split; reflexivity.
  - split; reflexivity.
  - reflexivity.
  - reflexivity.
  - reflexivity.
  - by_decision.
  - by_decision.
  - lia.
Defined.

Lemma neon_mask_wf (v o : SIMD16u_NEON.Holder) :
  SIMD16u_NEON.wf v → SIMD16u_NEON.wf o →
  SIMD16u_NEON.wf (snd (SIMD16u_NEON.minmask v o))
  ∧ SIMD16u_NEON.wf (snd (SIMD16u_NEON.maxmask v o)).
Proof.
  intros [Hvl Hvh] [Hol Hoh].
  unfold SIMD16u_NEON.wf, SIMD16u_NEON.minmask, SIMD16u_NEON.maxmask,
    SIMD16u_NEON.vceqq_u16, SIMD16u_NEON.vminq_u16, SIMD16u_NEON.vmaxq_u16.
  simpl. rewrite !length_zip_with. lia.
Qed.

Lemma avx2_mask_length (v o : SIMD16u_AVX2.Holder) :
  SIMD16u_AVX2.wf v → SIMD16u_AVX2.wf o →
  length (snd (SIMD16u_AVX2.min v o)) = 16%nat
  ∧ length (snd (SIMD16u_AVX2.max v o)) = 16%nat.
Proof.
  unfold SIMD16u_AVX2.wf. intros Hv Ho.
  unfold SIMD16u_AVX2.min, SIMD16u_AVX2.max, SIMD16u_AVX2._mm256_cmpeq_epi16,
    SIMD16u_AVX2._mm256_min_epu16, SIMD16u_AVX2._mm256_max_epu16.
  simpl. rewrite !length_zip_with. lia.
Qed.

(** X13.  The mask that the lane-wise minimum (maximum) returns is a
    selector for [blend]: blending [c] with [d] under the mask of
    [a.min(b)] takes the lane of [c] where [a_i <= b_i] and the lane of [d]
    elsewhere, and likewise with [>=] for the maximum; in both variants. *)
Theorem X13_min_max_mask_drives_blend
    (a b c d : SIMD16u_NEON.Holder) (a' b' c' d' : SIMD16u_AVX2.Holder)
    (i : nat) :
  SIMD16u_NEON.wf a → SIMD16u_NEON.wf b →
  SIMD16u_NEON.wf c → SIMD16u_NEON.wf d →
  SIMD16u_AVX2.wf a' → SIMD16u_AVX2.wf b' →
  SIMD16u_AVX2.wf c' → SIMD16u_AVX2.wf d' →
  u16_lanes (SIMD16u_NEON.arr c) → u16_lanes (SIMD16u_NEON.arr d) →
  (i < 16)%nat →
  SIMD16u_NEON.lane
    (SIMD16u_NEON.blend c d (snd (SIMD16u_NEON.minmask a b))) i
  = (if SIMD16u_NEON.lane a i <=? SIMD16u_NEON.lane b i
     then SIMD16u_NEON.lane c i else SIMD16u_NEON.lane d i)
  ∧ SIMD16u_NEON.lane
      (SIMD16u_NEON.blend c d (snd (SIMD16u_NEON.maxmask a b))) i
    = (if SIMD16u_NEON.lane a i >=? SIMD16u_NEON.lane b i
       then SIMD16u_NEON.lane c i else SIMD16u_NEON.lane d i)
  ∧ SIMD16u_AVX2.lane
      (SIMD16u_AVX2.blend c' d' (snd (SIMD16u_AVX2.min a' b'))) i
    = (if SIMD16u_AVX2.lane a' i <=? SIMD16u_AVX2.lane b' i
       then SIMD16u_AVX2.lane c' i else SIMD16u_AVX2.lane d' i)
  ∧ SIMD16u_AVX2.lane
      (SIMD16u_AVX2.blend c' d' (snd (SIMD16u_AVX2.max a' b'))) i
    = (if SIMD16u_AVX2.lane a' i >=? SIMD16u_AVX2.lane b' i
       then SIMD16u_AVX2.lane c' i else SIMD16u_AVX2.lane d' i).
Proof.
  intros Ha Hb Hc Hd Ha' Hb' Hc' Hd' Hrc Hrd Hi.
  pose proof (neon_u16_lane c i Hc Hrc Hi).
  pose proof (neon_u16_lane d i Hd Hrd Hi).
  destruct (neon_mask_wf a b Ha Hb) as [Hmin Hmax].
  destruct (avx2_mask_length a' b' Ha' Hb') as [Hmin' Hmax'].
  pose proof (neon_minmask_lanes a b Ha Hb i Hi) as [_ Emin].
  pose proof (neon_maxmask_lanes a b Ha Hb i Hi) as [_ Emax].
  pose proof (avx2_min_lanes a' b' Ha' Hb' i Hi) as [_ Emin'].
  pose proof (avx2_max_lanes a' b' Ha' Hb' i Hi) as [_ Emax'].
  rewrite !neon_blend_lane, !avx2_blend_lane by assumption.
  rewrite Emin, Emax, Emin', Emax'. clear Emin Emax Emin' Emax'.
  repeat split.
  - destruct (SIMD16u_NEON.lane a i <=? SIMD16u_NEON.lane b i);
      [apply vbsl_lane_ones; assumption | apply vbsl_lane_zero].
  - destruct (SIMD16u_NEON.lane a i >=? SIMD16u_NEON.lane b i);
      [apply vbsl_lane_ones; assumption | apply vbsl_lane_zero].
  - destruct (SIMD16u_AVX2.lane a' i <=? SIMD16u_AVX2.lane b' i);
      [apply blendv_lane_ones | apply blendv_lane_zero].
  - destruct (SIMD16u_AVX2.lane a' i >=? SIMD16u_AVX2.lane b' i);
      [apply blendv_lane_ones | apply blendv_lane_zero].
Qed.

Lemma X13_min_max_mask_drives_blend_witness :
  let a := SIMD16u_NEON.load exLanesA in
  let b := SIMD16u_NEON.load exLanesB in
  let a' := SIMD16u_AVX2.load exLanesA in
  let b' := SIMD16u_AVX2.load exLanesB in
  SIMD16u_NEON.lane
    (SIMD16u_NEON.blend b a (snd (SIMD16u_NEON.minmask a b))) 5
  = (if SIMD16u_NEON.lane a 5 <=? SIMD16u_NEON.lane b 5
     then SIMD16u_NEON.lane b 5 else SIMD16u_NEON.lane a 5)
  ∧ SIMD16u_NEON.lane
      (SIMD16u_NEON.blend b a (snd (SIMD16u_NEON.maxmask a b))) 5
    = (if SIMD16u_NEON.lane a 5 >=? SIMD16u_NEON.lane b 5
       then SIMD16u_NEON.lane b 5 else SIMD16u_NEON.lane a 5)
  ∧ SIMD16u_AVX2.lane
      (SIMD16u_AVX2.blend b' a' (snd (SIMD16u_AVX2.min a' b'))) 5
    = (if SIMD16u_AVX2.lane a' 5 <=? SIMD16u_AVX2.lane b' 5
       then SIMD16u_AVX2.lane b' 5 else SIMD16u_AVX2.lane a' 5)
  ∧ SIMD16u_AVX2.lane
      (SIMD16u_AVX2.blend b' a' (snd (SIMD16u_AVX2.max a' b'))) 5
    = (if SIMD16u_AVX2.lane a' 5 >=? SIMD16u_AVX2.lane b' 5
       then SIMD16u_AVX2.lane b' 5 else SIMD16u_AVX2.lane a' 5).
Proof.
  apply (X13_min_max_mask_drives_blend
           (SIMD16u_NEON.load exLanesA) (SIMD16u_NEON.load exLanesB)
           (SIMD16u_NEON.load exLanesB) (SIMD16u_NEON.load exLanesA)
           (SIMD16u_AVX2.load exLanesA) (SIMD16u_AVX2.load exLanesB)
           (SIMD16u_AVX2.load exLanesB) (SIMD16u_AVX2.load exLanesA) 5).
  - split; reflexivity.
  - split; reflexivity.
  - split; reflexivity.
  - split; reflexivity.
  - reflexivity.
  - reflexivity.
  - reflexivity.
  - reflexivity.
  - by_decision.
  - by_decision.
  - lia.
Defined.

Lemma lookup_total_map_lane (f : Z → Z) (a : list Z) (i : nat) :
  (i < length a)%nat → map f a !!! i = f (a !!! i).
Proof.
  intros Hi. rewrite map_fmap. apply list_lookup_total_correct.
  rewrite list_lookup_fmap, (list_lookup_lookup_total_lt a i Hi).
  reflexivity.
Qed.

Lemma shl_out (x bits : Z) : 16 <= bits → wrap16 (x * 2 ^ bits) = 0.
Proof.
  intros Hb. unfold wrap16.
  replace bits with ((bits - 16) + 16) by lia.
  rewrite Z.pow_add_r by lia. change (2 ^ 16) with 65536.
  rewrite Z.mul_assoc. apply Z.mod_mul. lia.
Qed.

Lemma shr_out (x bits : Z) : 0 <= x < 65536 → 16 <= bits → x / 2 ^ bits = 0.
Proof.
  intros Hx Hb. apply Z.div_small.
  pose proof (Z.pow_le_mono_r 2 16 bits ltac:(lia) Hb) as Hpow.
  change (2 ^ 16) with 65536 in Hpow. lia.
Qed.

Lemma vshl_lane_left (x bits : Z) :
  0 <= bits < 128 →
  SIMD16u_NEON.vshl_lane x (to_int16 bits) = wrap16 (x * 2 ^ bits).
Proof.
  intros Hb. unfold SIMD16u_NEON.vshl_lane, to_int16.
  rewrite (Z.mod_small bits 65536) by lia.
  destruct (Z.ltb_spec bits 32768); [|lia].
  rewrite (Z.mod_small bits 256) by lia.
  destruct (Z.ltb_spec bits 128); [|lia].
  destruct (Z.leb_spec 0 bits); [reflexivity | lia].
Qed.

Lemma vshl_lane_right (x bits : Z) :
  0 <= bits < 128 → 0 <= x < 65536 →
  SIMD16u_NEON.vshl_lane x (to_int16 (- bits)) = x / 2 ^ bits.
Proof.
  intros Hb Hx.
  destruct (Z.eq_dec bits 0) as [-> | Hnz].
  - vm_compute (to_int16 (- 0)). unfold SIMD16u_NEON.vshl_lane.
    change (0 mod 256) with 0. simpl.
    rewrite Z.mul_1_r, Z.div_1_r. apply Z.mod_small. assumption.
  - assert (Hcast : to_int16 (- bits) = - bits).
    { unfold to_int16.
      rewrite <- (Z.mod_unique (- bits) 65536 (-1) (65536 - bits)) by lia.
      destruct (Z.ltb_spec (65536 - bits) 32768); lia. }
    rewrite Hcast. unfold SIMD16u_NEON.vshl_lane.
    rewrite <- (Z.mod_unique (- bits) 256 (-1) (256 - bits)) by lia.
    destruct (Z.ltb_spec (256 - bits) 128); [lia|].
    destruct (Z.leb_spec 0 (256 - bits - 256)); [lia|].
    f_equal. f_equal. lia.
Qed.

Lemma neon_shift_lane (v : SIMD16u_NEON.Holder) (s : Z) (i : nat) :
  SIMD16u_NEON.wf v → (i < 16)%nat →
  SIMD16u_NEON.lane
    {| SIMD16u_NEON.lo :=
         SIMD16u_NEON.vshlq_u16 (SIMD16u_NEON.lo v)
           (SIMD16u_NEON.vdupq_n_s16 s);
       SIMD16u_NEON.hi :=
         SIMD16u_NEON.vshlq_u16 (SIMD16u_NEON.hi v)
           (SIMD16u_NEON.vdupq_n_s16 s) |} i
  = SIMD16u_NEON.vshl_lane (SIMD16u_NEON.lane v i) s.
Proof.
  intros [Hlo Hhi] Hi.
  unfold SIMD16u_NEON.lane, SIMD16u_NEON.arr, SIMD16u_NEON.vshlq_u16,
    SIMD16u_NEON.vdupq_n_s16.
  cbn [SIMD16u_NEON.lo SIMD16u_NEON.hi].
  rewrite land_15_small by assumption.
  rewrite halves_lane by (rewrite ?length_replicate; lia).
  f_equal. rewrite <- replicate_add.
  apply lookup_total_replicate_2. lia.
Qed.

(** X14.  For a shift count from 0 to 127, [sll] leaves
    [(x * 2^bits) mod 2^16] and [srl] leaves [x / 2^bits] in every lane;
    a count of 16 or more clears the lane; in both variants (the NEON
    variant shifts right by shifting left by the negated count). *)
Theorem X14_shifts
    (v : SIMD16u_NEON.Holder) (v' : SIMD16u_AVX2.Holder) (bits : Z)
    (i : nat) :
  SIMD16u_NEON.wf v → SIMD16u_AVX2.wf v' →
  u16_lanes (SIMD16u_NEON.arr v) → u16_lanes (SIMD16u_AVX2.arr v') →
  0 <= bits < 128 → (i < 16)%nat →
  (SIMD16u_NEON.lane (SIMD16u_NEON.sll v bits) i
     = (SIMD16u_NEON.lane v i * 2 ^ bits) mod 65536
   ∧ SIMD16u_NEON.lane (SIMD16u_NEON.srl v bits) i
     = SIMD16u_NEON.lane v i / 2 ^ bits)
  ∧ (SIMD16u_AVX2.lane (SIMD16u_AVX2.sll v' bits) i
       = (SIMD16u_AVX2.lane v' i * 2 ^ bits) mod 65536
     ∧ SIMD16u_AVX2.lane (SIMD16u_AVX2.srl v' bits) i
       = SIMD16u_AVX2.lane v' i / 2 ^ bits)
  ∧ (16 <= bits →
     SIMD16u_NEON.lane (SIMD16u_NEON.sll v bits) i = 0
     ∧ SIMD16u_NEON.lane (SIMD16u_NEON.srl v bits) i = 0
     ∧ SIMD16u_AVX2.lane (SIMD16u_AVX2.sll v' bits) i = 0
     ∧ SIMD16u_AVX2.lane (SIMD16u_AVX2.srl v' bits) i = 0).
Proof.
  intros Hv Hv' Hrv Hrv' Hb Hi.
  pose proof (neon_u16_lane v i Hv Hrv Hi) as Hx.
  pose proof (avx2_u16_lane v' i Hv' Hrv' Hi) as Hx'.
  assert (Hn1 : SIMD16u_NEON.lane (SIMD16u_NEON.sll v bits) i
                = wrap16 (SIMD16u_NEON.lane v i * 2 ^ bits)).
  { unfold SIMD16u_NEON.sll. rewrite neon_shift_lane by assumption.
    apply vshl_lane_left. assumption. }
  assert (Hn2 : SIMD16u_NEON.lane (SIMD16u_NEON.srl v bits) i
                = SIMD16u_NEON.lane v i / 2 ^ bits).
  { unfold SIMD16u_NEON.srl. rewrite neon_shift_lane by assumption.
    apply vshl_lane_right; assumption. }
  assert (Ha1 : SIMD16u_AVX2.lane (SIMD16u_AVX2.sll v' bits) i
                = wrap16 (SIMD16u_AVX2.lane v' i * 2 ^ bits)).
  { unfold SIMD16u_AVX2.wf in Hv'.
    unfold SIMD16u_AVX2.lane, SIMD16u_AVX2.arr, SIMD16u_AVX2.sll,
      SIMD16u_AVX2._mm256_slli_epi16 in *.
    cbn [SIMD16u_AVX2.reg]. rewrite land_15_small in * by assumption.
    rewrite lookup_total_map_lane by lia.
    rewrite (Z.mod_small bits 256) by lia.
    destruct (Z.gtb_spec bits 15); [|reflexivity].
    symmetry. apply shl_out. lia. }
  assert (Ha2 : SIMD16u_AVX2.lane (SIMD16u_AVX2.srl v' bits) i
                = SIMD16u_AVX2.lane v' i / 2 ^ bits).
  { unfold SIMD16u_AVX2.wf in Hv'.
    unfold SIMD16u_AVX2.lane, SIMD16u_AVX2.arr, SIMD16u_AVX2.srl,
      SIMD16u_AVX2._mm256_srli_epi16 in *.
    cbn [SIMD16u_AVX2.reg]. rewrite land_15_small in * by assumption.
    rewrite lookup_total_map_lane by lia.
    rewrite (Z.mod_small bits 256) by lia.
    destruct (Z.gtb_spec bits 15); [|reflexivity].
    symmetry. apply shr_out; [assumption | lia]. }
  rewrite Hn1, Hn2, Ha1, Ha2. unfold wrap16.
  split; [split; reflexivity|]. split; [split; reflexivity|].
  intros Hbig.
  pose proof (shl_out (SIMD16u_NEON.lane v i) bits Hbig) as E1.
  pose proof (shl_out (SIMD16u_AVX2.lane v' i) bits Hbig) as E2.
  unfold wrap16 in E1, E2.
  rewrite E1, E2, !shr_out by assumption. repeat split; reflexivity.
Qed.

Lemma X14_shifts_witness :
  let v := SIMD16u_NEON.load exLanesA in
  let v' := SIMD16u_AVX2.load exLanesA in
  (SIMD16u_NEON.lane (SIMD16u_NEON.sll v 3) 10
     = (SIMD16u_NEON.lane v 10 * 2 ^ 3) mod 65536
   ∧ SIMD16u_NEON.lane (SIMD16u_NEON.srl v 3) 10
     = SIMD16u_NEON.lane v 10 / 2 ^ 3)
  ∧ (SIMD16u_AVX2.lane (SIMD16u_AVX2.sll v' 3) 10
       = (SIMD16u_AVX2.lane v' 10 * 2 ^ 3) mod 65536
     ∧ SIMD16u_AVX2.lane (SIMD16u_AVX2.srl v' 3) 10
       = SIMD16u_AVX2.lane v' 10 / 2 ^ 3)
  ∧ (16 <= 3 →
     SIMD16u_NEON.lane (SIMD16u_NEON.sll v 3) 10 = 0
     ∧ SIMD16u_NEON.lane (SIMD16u_NEON.srl v 3) 10 = 0
     ∧ SIMD16u_AVX2.lane (SIMD16u_AVX2.sll v' 3) 10 = 0
     ∧ SIMD16u_AVX2.lane (SIMD16u_AVX2.srl v' 3) 10 = 0).
Proof.
  apply (X14_shifts (SIMD16u_NEON.load exLanesA)
           (SIMD16u_AVX2.load exLanesA) 3 10).
  - split; reflexivity.
  - reflexivity.
  - by_decision.
  - by_decision.
  - lia.
  - lia.
Defined.

(** ** Further properties of the allocator *)

(** X15.  [max_size()] is the largest element count whose byte size fits
    [std::size_t]. *)
Theorem X15_max_size_is_largest_count (w sizeofT : Z) :
  0 < w → 0 < sizeofT →
  0 <= max_size w sizeofT
  ∧ max_size w sizeofT * sizeofT <= SIZE_MAX w
  ∧ SIZE_MAX w < (max_size w sizeofT + 1) * sizeofT.
Proof.
  intros Hw Hs.
  pose proof (max_size_spec w Hw sizeofT (max_size w sizeofT) Hs) as Hle.
  pose proof (max_size_spec w Hw sizeofT (max_size w sizeofT + 1) Hs) as Hgt.
  assert (Hpow : 0 < 2 ^ w) by (apply Z.pow_pos_nonneg; lia).
  assert (Hnn : 0 <= max_size w sizeofT).
  { unfold max_size, size_wrap. apply Z.div_pos; [|assumption].
    apply Z.mod_pos_bound. assumption. }
  repeat split; [assumption | lia | lia].
Qed.

Lemma X15_max_size_is_largest_count_witness :
  0 <= max_size 64 16
  ∧ max_size 64 16 * 16 <= SIZE_MAX 64
  ∧ SIZE_MAX 64 < (max_size 64 16 + 1) * 16.
Proof.
  apply (X15_max_size_is_largest_count 64 16); lia.
Defined.



(** X17.  In the NEON build the rounding can wrap: when
    [n * sizeof(T) + Alignment - 1] does not fit [std::size_t], an accepted
    request reaches [aligned_alloc] with size 0. *)
Theorem X17_arm_rounding_wraps_to_zero (w sizeofT k : Z)
    (alloc : Request → Z) (n : Z) (req : Request) :
  0 < w → 0 < sizeofT → 0 <= k < w → 0 < n →
  fst (allocate Arm w sizeofT (2 ^ k) alloc n) = Some req →
  n * sizeofT + 2 ^ k - 1 > SIZE_MAX w →
  req_size req = 0.
Proof.
  intros Hw Hs Hk Hn Hreq Hover.
  destruct (allocate_request Arm w sizeofT (2 ^ k) alloc n req
              Hw Hs ltac:(lia) Hreq) as (_ & Hfit & ->).
  assert (Hpk : 0 < 2 ^ k) by (apply Z.pow_pos_nonneg; lia).
  assert (Hlt : 2 ^ k < 2 ^ w) by (apply Z.pow_lt_mono_r; lia).
  simpl. unfold SIZE_MAX in *.
  set (x := size_wrap w (n * sizeofT + 2 ^ k - 1)).
  assert (Hx : x = n * sizeofT + 2 ^ k - 1 - 2 ^ w).
  { unfold x, size_wrap. symmetry.
    apply (Z.mod_unique _ (2 ^ w) 1); lia. }
  rewrite (land_not_low_bits w Hw x k Hk) by (unfold SIZE_MAX; lia).
  rewrite Z.mod_small by lia. lia.
Qed.

Lemma X17_arm_rounding_wraps_to_zero_witness :
  req_size {| req_alignment := 16; req_size := 0 |} = 0.
Proof.
  apply (X17_arm_rounding_wraps_to_zero 64 1 4 (fun _ => 0)
           (2 ^ 64 - 1) {| req_alignment := 16; req_size := 0 |}).
  - lia.
  - lia.
  - lia.
  - lia.
  - reflexivity.
  - unfold SIZE_MAX. lia.
Defined.

(** X18.  When the alignment divides [sizeof(T)], as for the label
    vectors of the reached index (16 bytes, aligned to 16), both builds ask
    the platform for exactly [n * sizeof(T)] bytes: the rounding changes
    nothing and cannot wrap. *)
Theorem X18_aligned_element_size_exact plat (w sizeofT k : Z)
    (alloc : Request → Z) (n : Z) (req : Request) :
  0 < w → 0 < sizeofT → 0 <= k < w → 0 < n →
  (2 ^ k | sizeofT) →
  fst (allocate plat w sizeofT (2 ^ k) alloc n) = Some req →
  req = {| req_alignment := 2 ^ k; req_size := n * sizeofT |}.
Proof.
  intros Hw Hs Hk Hn [q Hq] Hreq.
  destruct (allocate_request plat w sizeofT (2 ^ k) alloc n req
              Hw Hs ltac:(lia) Hreq) as (_ & Hfit & ->).
  destruct plat; [|reflexivity]. f_equal.
  assert (Hpk : 0 < 2 ^ k) by (apply Z.pow_pos_nonneg; lia).
  assert (Hsplit : 2 ^ w = 2 ^ (w - k) * 2 ^ k).
  { rewrite <- Z.pow_add_r by lia. f_equal. lia. }
  assert (Hpd : 0 < 2 ^ (w - k)) by (apply Z.pow_pos_nonneg; lia).
  unfold SIZE_MAX in *.
  assert (Htot : n * sizeofT = (n * q) * 2 ^ k) by (rewrite Hq; ring).
  assert (Hroom : n * sizeofT + 2 ^ k - 1 <= 2 ^ w - 1).
  { rewrite Htot in *. rewrite Hsplit in *.
    assert (n * q < 2 ^ (w - k)) by nia. nia. }
  set (x := size_wrap w (n * sizeofT + 2 ^ k - 1)).
  assert (Hx : x = n * sizeofT + 2 ^ k - 1).
  { unfold x. apply size_wrap_small. unfold SIZE_MAX. nia. }
  rewrite (land_not_low_bits w Hw x k Hk) by (unfold SIZE_MAX; nia).
  assert (Hmod : x mod 2 ^ k = 2 ^ k - 1).
  { symmetry. apply (Z.mod_unique x (2 ^ k) (n * q)); lia. }
  lia.
Qed.

Lemma X18_aligned_element_size_exact_witness :
  {| req_alignment := 16; req_size := 80 |}
  = {| req_alignment := 2 ^ 4; req_size := 5 * 16 |}.
Proof.
  apply (X18_aligned_element_size_exact Arm 64 16 4 (fun _ => 4096) 5
           {| req_alignment := 16; req_size := 80 |}).
  - lia.
  - lia.
  - lia.
  - lia.
  - exists 1. reflexivity.
  - reflexivity.
Defined.
